(** * Choreography generation pipeline: Scripts/generate_choreo.py

    A shallow embedding of the generator script and the properties its
    specification states about it.

    Modelling conventions.
    - A Python [float] is a real number ([R]): finite values and exact
      arithmetic.  Division is the one fallible arithmetic operation
      ([py_div] raises [ZeroDivisionError] on a zero divisor).  This is
      an idealisation: it leaves out rounding, overflow and NaN.
    - Where these decide a property, the same code is embedded in
      binary64, on the primitive floats of the kernel ([Module F64]):
      the normalizer, whose extents can overflow, and the beat grid,
      whose length is a truncated quotient.  Statements made on the real
      model say on which inputs they are made.
    - A Python [dict] is an association list in insertion order with
      unique keys ([Dict.t]); [d[k] = v] is [Dict.set].
    - Code that can raise returns a [result]; code that also prints
      progress lines runs in the monad [M], which collects the lines
      printed and keeps them when an exception is raised.
    - The third-party services (librosa, soundfile, torch, EDGE) and the
      file system are a [World]: a record of what each call answers. *)

From Stdlib Require Import Reals Lra Lia List String ZArith Bool.
From Stdlib Require Import Floats Uint63.
Import ListNotations.

Set Warnings "-inexact-float".
Open Scope string_scope.
Open Scope list_scope.
Open Scope R_scope.

(** ** Exceptions and results *)

Inductive exn : Type :=
| ZeroDivisionError
| IndexError
| ValueError
| ImportError
| OSError
| RuntimeError
| OverflowError
| MemoryError.

Inductive result (A : Type) : Type :=
| Ok (a : A)
| Raise (e : exn).

Arguments Ok {A} a.
Arguments Raise {A} e.

Definition rbind {A B : Type} (r : result A) (k : A -> result B) : result B :=
  match r with
  | Ok a => k a
  | Raise e => Raise e
  end.

Declare Scope result_scope.
Delimit Scope result_scope with result.
Notation "x <- r ;; k" := (rbind r (fun x => k))
  (at level 61, r at next level, right associativity) : result_scope.
Open Scope result_scope.

(** ** Python primitives on floats *)

(** [a / b] *)
Definition py_div (a b : R) : result R :=
  if Req_dec_T b 0 then Raise ZeroDivisionError else Ok (a / b).

(** [a or b] on floats: [a] when it is truthy (non-zero), else [b]. *)
Definition py_or (a b : R) : R :=
  if Req_dec_T a 0 then b else a.

(** [min(l)] and [max(l)]; both raise [ValueError] on an empty list. *)
Definition py_min (l : list R) : result R :=
  match l with
  | [] => Raise ValueError
  | x :: t => Ok (fold_left Rmin t x)
  end.

Definition py_max (l : list R) : result R :=
  match l with
  | [] => Raise ValueError
  | x :: t => Ok (fold_left Rmax t x)
  end.

(** [int(x)]: truncation towards zero. *)
Definition py_int (x : R) : Z :=
  if Rle_dec 0 x then Int_part x else (- Int_part (- x))%Z.

(** [range(n)] *)
Definition py_range (n : Z) : list nat := seq 0 (Z.to_nat n).

(** ** Dictionaries *)

Module Dict.

Definition t (V : Type) : Type := list (string * V).

Definition keys {V : Type} (d : t V) : list string := map fst d.

Definition values {V : Type} (d : t V) : list V := map snd d.

Fixpoint get {V : Type} (k : string) (d : t V) : option V :=
  match d with
  | [] => None
  | (k', v) :: d' => if String.eqb k k' then Some v else get k d'
  end.

(** [d[k] = v]: an existing key keeps its position, a new key goes last. *)
Fixpoint set {V : Type} (k : string) (v : V) (d : t V) : t V :=
  match d with
  | [] => [(k, v)]
  | (k', v') :: d' =>
      if String.eqb k k' then (k, v) :: d' else (k', v') :: set k v d'
  end.

End Dict.

(** ** Joint tables *)

Definition JOINT_NAMES : list string :=
  [ "nose"; "left_eye"; "right_eye"; "left_ear"; "right_ear";
    "left_shoulder"; "right_shoulder";
    "left_elbow"; "right_elbow";
    "left_wrist"; "right_wrist";
    "left_hip"; "right_hip";
    "left_knee"; "right_knee";
    "left_ankle"; "right_ankle" ].

Definition SMPL_TO_JOINT : list (nat * string) :=
  [ (15%nat, "nose");
    (16%nat, "left_ear");
    (17%nat, "right_ear");
    (18%nat, "left_shoulder");
    (19%nat, "right_shoulder");
    (20%nat, "left_elbow");
    (21%nat, "right_elbow");
    (22%nat, "left_wrist");
    (23%nat, "right_wrist");
    (1%nat, "left_hip");
    (2%nat, "right_hip");
    (4%nat, "left_knee");
    (5%nat, "right_knee");
    (7%nat, "left_ankle");
    (8%nat, "right_ankle") ].

(** A pose: joint name to [[x, y]]. *)
Definition Pose : Type := Dict.t (R * R).

(** One row of the SMPL joint array. *)
Definition Point3 : Type := (R * R * R)%type.

(** ** project_smpl_to_2d *)

(** On real numbers; [F64.project_smpl_to_2d] is the same code on binary64,
    where an extent can overflow.  A row is a triple, as the rows of an
    array of 3D joints are.

    The first loop: [visible[name] = (float(j[0]), float(j[1]))] for the
    table entries whose index is inside the array. *)
Fixpoint collect_visible (table : list (nat * string)) (joints_3d : list Point3)
    (visible : Pose) : result Pose :=
  match table with
  | [] => Ok visible
  | (smpl_idx, name) :: rest =>
      if (smpl_idx <? List.length joints_3d)%nat then
        match nth_error joints_3d smpl_idx with
        | Some (x, y, _) =>
            collect_visible rest joints_3d (Dict.set name (x, y) visible)
        | None => Raise IndexError
        end
      else collect_visible rest joints_3d visible
  end.

(** The second loop: the normalised point of every visible joint. *)
Fixpoint normalize_items (items : list (string * (R * R)))
    (min_x range_x min_y range_y : R) (normalized : Pose) : result Pose :=
  match items with
  | [] => Ok normalized
  | (name, (x, y)) :: rest =>
      nx <- py_div (x - min_x) range_x ;;
      qy <- py_div (y - min_y) range_y ;;
      normalize_items rest min_x range_x min_y range_y
        (Dict.set name (nx, 1 - qy) normalized)
  end.

Definition project_smpl_to_2d (joints_3d : list Point3) : result Pose :=
  visible <- collect_visible SMPL_TO_JOINT joints_3d [] ;;
  match visible with
  | [] => Ok []
  | _ :: _ =>
      let xs := map fst (Dict.values visible) in
      let ys := map snd (Dict.values visible) in
      min_x <- py_min xs ;;
      max_x <- py_max xs ;;
      min_y <- py_min ys ;;
      max_y <- py_max ys ;;
      let range_x := py_or (max_x - min_x) 1 in
      let range_y := py_or (max_y - min_y) 1 in
      normalize_items visible min_x range_x min_y range_y []
  end.

(** ** generate_template_choreo *)

Record Keyframe : Type := mkKeyframe {
  timestamp : R;
  joints : Pose
}.

(** [pt(x, y)]: a point as the two-element list [[x, y]]. *)
Definition pt (x y : R) : R * R := (x, y).

Definition base_pose : Pose :=
  [ ("nose",           pt 0.50 0.08);
    ("left_shoulder",  pt 0.38 0.22);
    ("right_shoulder", pt 0.62 0.22);
    ("left_elbow",     pt 0.28 0.38);
    ("right_elbow",    pt 0.72 0.38);
    ("left_wrist",     pt 0.22 0.52);
    ("right_wrist",    pt 0.78 0.52);
    ("left_hip",       pt 0.42 0.52);
    ("right_hip",      pt 0.58 0.52);
    ("left_knee",      pt 0.40 0.70);
    ("right_knee",     pt 0.60 0.70);
    ("left_ankle",     pt 0.40 0.88);
    ("right_ankle",    pt 0.60 0.88) ].

Definition arms_up (t_phase : R) : Pose :=
  let p := base_pose in
  let lift := Rabs (sin (t_phase * PI)) in
  let p := Dict.set "left_elbow"  (pt 0.30 (0.22 - lift * 0.10)) p in
  let p := Dict.set "right_elbow" (pt 0.70 (0.22 - lift * 0.10)) p in
  let p := Dict.set "left_wrist"  (pt 0.25 (0.10 - lift * 0.08)) p in
  let p := Dict.set "right_wrist" (pt 0.75 (0.10 - lift * 0.08)) p in
  p.

(** The loop [for k in p: p[k] = [p[k][0] + shift, p[k][1]]] rewrites the
    value of every key in place. *)
Definition shift_all (shift : R) (p : Pose) : Pose :=
  map (fun kv => (fst kv, pt (fst (snd kv) + shift) (snd (snd kv)))) p.

Definition side_step (t_phase direction : R) : Pose :=
  let p := base_pose in
  let shift := direction * 0.06 * Rabs (sin (t_phase * PI)) in
  let p := shift_all shift p in
  let p := Dict.set "left_elbow"  (pt 0.20 0.35) p in
  let p := Dict.set "right_elbow" (pt 0.80 0.35) p in
  let p := Dict.set "left_wrist"  (pt 0.15 0.50) p in
  let p := Dict.set "right_wrist" (pt 0.85 0.50) p in
  p.

Definition wave_arms (t_phase : R) : Pose :=
  let p := base_pose in
  let wave := sin (t_phase * PI * 2) in
  let p := Dict.set "left_elbow"  (pt (0.28 + wave * 0.08) (0.32 + wave * 0.06)) p in
  let p := Dict.set "left_wrist"  (pt (0.18 + wave * 0.12) (0.20 + wave * 0.10)) p in
  let p := Dict.set "right_elbow" (pt (0.72 - wave * 0.08) (0.32 - wave * 0.06)) p in
  let p := Dict.set "right_wrist" (pt (0.82 - wave * 0.12) (0.20 - wave * 0.10)) p in
  p.

(** The three move functions, as the values stored in [move_sequence]. *)
Inductive Move : Type := ArmsUp | SideStep | WaveArms.

Definition Move_eqb (a b : Move) : bool :=
  match a, b with
  | ArmsUp, ArmsUp | SideStep, SideStep | WaveArms, WaveArms => true
  | _, _ => false
  end.

(** [f(t_phase)]: a move called with the phase alone; [side_step] then
    takes its default [direction = 1.0]. *)
Definition call_move (f : Move) (t_phase : R) : Pose :=
  match f with
  | ArmsUp => arms_up t_phase
  | SideStep => side_step t_phase 1
  | WaveArms => wave_arms t_phase
  end.

Definition move_sequence : list Move := [ArmsUp; SideStep; WaveArms; SideStep].

Definition move_beats : nat := 4.

(** The body of the beat loop up to [joints]: the pose of beat [i]. *)
Definition beat_joints (i : nat) : result Pose :=
  let move_idx := ((i / move_beats) mod List.length move_sequence)%nat in
  let beat_in_move := (i mod move_beats)%nat in
  let t_phase := INR beat_in_move / INR move_beats in
  let direction := if ((i / move_beats) mod 2 =? 0)%nat then 1 else -1 in
  match nth_error move_sequence move_idx with
  | None => Raise IndexError
  | Some f =>
      if Move_eqb f SideStep
      then Ok (side_step t_phase direction)
      else Ok (call_move f t_phase)
  end.

(** [for i, beat_time in enumerate(beat_times)], from index [i] on, with
    the frames appended so far. *)
Fixpoint sequence_beats (i : nat) (beat_times : list R) (duration : R)
    (frames : list Keyframe) : result (list Keyframe) :=
  match beat_times with
  | [] => Ok frames
  | beat_time :: rest =>
      if Rgt_dec beat_time duration then Ok frames
      else
        joints <- beat_joints i ;;
        sequence_beats (S i) rest duration
          (frames ++ [mkKeyframe beat_time joints])
  end.

Definition generate_template_choreo (bpm : R) (beat_times : list R)
    (duration : R) : result (list Keyframe) :=
  beat_interval <- py_div 60 bpm ;;
  sequence_beats 0 beat_times duration [].

(** ** Progress lines and the monad of the orchestrator *)

Record Event : Type := mkEvent {
  stage : string;
  progress : R;
  error : option string
}.

Definition Log : Type := list Event.

(** A computation of the orchestrator: the lines it prints, in order, and
    its result.  Printed lines are never read back, and they stay printed
    when the computation raises. *)
Definition M (A : Type) : Type := (Log * result A)%type.

Definition ret {A : Type} (a : A) : M A := ([], Ok a).

Definition bind {A B : Type} (m : M A) (k : A -> M B) : M B :=
  match m with
  | (log, Ok a) => (log ++ fst (k a), snd (k a))
  | (log, Raise e) => (log, Raise e)
  end.

(** A call that prints nothing. *)
Definition lift {A : Type} (r : result A) : M A := ([], r).

(** [try: body  except Exception: handler] *)
Definition try_except {A : Type} (body : M A) (handler : exn -> M A) : M A :=
  match body with
  | (log, Ok a) => (log, Ok a)
  | (log, Raise e) => (log ++ fst (handler e), snd (handler e))
  end.

Notation "x <<- m ;; k" := (bind m (fun x => k))
  (at level 61, m at next level, right associativity).

Definition emit_progress (stage : string) (progress : R) : M unit :=
  ([mkEvent stage progress None], Ok tt).

(** ** The outside world *)

Record World : Type := mkWorld {
  (** [parser.parse_args()]: [None] when the arguments parse, [Some status]
      when argparse leaves the script (0 after [-h], 2 on a usage error) *)
  parse_args : option Z;
  (** [args.mp3] *)
  mp3_path : string;
  (** [str(e)] for the exception [generate] raised *)
  error_text : exn -> string;
  (** [os.path.isfile(args.mp3)] *)
  mp3_is_file : bool;
  (** [os.path.basename(output_dir)] *)
  output_basename : string;
  (** [os.makedirs(output_dir, exist_ok=True)] *)
  makedirs : result unit;
  (** [import librosa] through [bpm = float(...)]:
      [(duration, bpm, beat_times)] *)
  librosa_analysis : result (R * R * list R);
  (** [import soundfile] and [sf_fallback.info(mp3_path).duration] *)
  soundfile_duration : result R;
  (** writing [analysis.json] *)
  write_analysis : result unit;
  (** [import torch], [import importlib] *)
  torch_import : result unit;
  (** [importlib.util.find_spec("EDGE") is not None] *)
  edge_find_spec : result bool;
  (** [from EDGE import EDGE] *)
  edge_import : result unit;
  (** the device query and [EDGE(device=device)] *)
  edge_model : result unit;
  (** [model.generate(mp3_path)] as the pairs [(t, pose_3d)] it yields,
      each pose an array of rows of three coordinates *)
  edge_generate : result (list (R * list Point3));
  (** writing [choreo.json] *)
  write_choreo : result unit
}.

(** ** try_edge_generation *)

(** [for i, (t, pose_3d) in enumerate(output)], with the frames so far. *)
Fixpoint project_frames (output : list (R * list Point3))
    (frames : list Keyframe) : result (list Keyframe) :=
  match output with
  | [] => Ok frames
  | (t, pose_3d) :: rest =>
      joints_2d <- project_smpl_to_2d pose_3d ;;
      match joints_2d with
      | [] => project_frames rest frames
      | _ :: _ => project_frames rest (frames ++ [mkKeyframe t joints_2d])
      end
  end.

Definition try_edge_generation (w : World) (bpm : R) (beat_times : list R)
    : M (option (list Keyframe)) :=
  try_except
    (_ <<- lift (torch_import w) ;;
     found <<- lift (edge_find_spec w) ;;
     if negb found then ret None
     else
       _ <<- emit_progress "Loading EDGE model" 0.35 ;;
       _ <<- lift (edge_import w) ;;
       _ <<- lift (edge_model w) ;;
       _ <<- emit_progress "Running EDGE inference" 0.5 ;;
       output <<- lift (edge_generate w) ;;
       _ <<- emit_progress "Projecting to 2D" 0.75 ;;
       frames <<- lift (project_frames output []) ;;
       ret (match frames with [] => None | _ :: _ => Some frames end))
    (fun _ => ret None).

(** ** generate *)

Record Choreography : Type := mkChoreography {
  songMD5 : string;
  bpm : R;
  totalDuration : R;
  frames : list Keyframe
}.

Record AnalysisResult : Type := mkAnalysis {
  a_bpm : R;
  a_duration : R;
  a_beat_times : list R
}.

(** The two statements that synthesize the uniform beat grid (they occur
    twice in [generate], once per analysis path):
    [beat_interval = 60.0 / bpm] and
    [[i * beat_interval for i in range(int(duration / beat_interval))]].
    On real numbers the quotient is exact; [F64.beat_grid] is the same code
    on binary64, where the rounded quotient decides the number of beats. *)
Definition beat_grid (bpm duration : R) : result (list R) :=
  beat_interval <- py_div 60 bpm ;;
  n <- py_div duration beat_interval ;;
  Ok (map (fun i => INR i * beat_interval) (py_range (py_int n))).

(** The analysis block of [generate]: the [try] over librosa and its
    [except] branch. *)
Definition analyze_music (w : World) : M AnalysisResult :=
  try_except
    (a <<- lift (librosa_analysis w) ;;
     let '(duration, bpm, beat_times) := a in
     match beat_times with
     | [] =>
         grid <<- lift (beat_grid bpm duration) ;;
         ret (mkAnalysis bpm duration grid)
     | _ :: _ => ret (mkAnalysis bpm duration beat_times)
     end)
    (fun _ =>
       _ <<- emit_progress "Analyzing music (fallback)" 0.15 ;;
       duration <<- try_except (lift (soundfile_duration w))
                               (fun _ => ret 180) ;;
       let bpm := 120 in
       grid <<- lift (beat_grid bpm duration) ;;
       ret (mkAnalysis bpm duration grid)).

(** [generate] returns the choreography it has written to [choreo.json]. *)
Definition generate (w : World) : M Choreography :=
  _ <<- lift (makedirs w) ;;
  _ <<- emit_progress "Analyzing music" 0.1 ;;
  a <<- analyze_music w ;;
  _ <<- lift (write_analysis w) ;;
  _ <<- emit_progress "Generating moves" 0.3 ;;
  edge <<- try_edge_generation w (a_bpm a) (a_beat_times a) ;;
  frames <<- match edge with
             | Some frames => ret frames
             | None =>
                 _ <<- emit_progress "Generating moves (template mode)" 0.4 ;;
                 lift (generate_template_choreo
                         (a_bpm a) (a_beat_times a) (a_duration a))
             end ;;
  _ <<- emit_progress "Saving choreography" 0.9 ;;
  let choreo :=
    mkChoreography (output_basename w) (a_bpm a) (a_duration a) frames in
  _ <<- lift (write_choreo w) ;;
  _ <<- emit_progress "Done" 1.0 ;;
  ret choreo.

(** ** The script's entry point *)

Record Run : Type := mkRun {
  events : Log;
  exit_status : Z;
  written : option Choreography
}.

(** The script.  argparse can leave before anything is printed; a missing
    input file and an exception of [generate] each print one Error line
    and give the status 1; otherwise the script ends with the status 0. *)
Definition main (w : World) : Run :=
  match parse_args w with
  | Some status => mkRun [] status None
  | None =>
      if negb (mp3_is_file w) then
        mkRun [mkEvent "Error" 0
                 (Some (String.append "File not found: " (mp3_path w)))]
              1 None
      else
        match generate w with
        | (log, Ok choreo) => mkRun log 0 (Some choreo)
        | (log, Raise e) =>
            mkRun (log ++ [mkEvent "Error" 0 (Some (error_text w e))]) 1 None
        end
  end.

(** ** The normalizer and the beat grid in binary64 *)

Module F64.

Local Open Scope float_scope.

(** [a / b]: a zero divisor of either sign raises. *)
Definition py_div (a b : float) : result float :=
  if PrimFloat.eqb b 0 then Raise ZeroDivisionError else Ok (a / b).

(** [a or b]: [a] when it is truthy, that is when [a != 0.0] (a NaN is
    truthy). *)
Definition py_or (a b : float) : float :=
  if PrimFloat.eqb a 0 then b else a.

(** [min(l)]: the running minimum is replaced when [item < minimum]. *)
Definition py_min (l : list float) : result float :=
  match l with
  | [] => Raise ValueError
  | x :: t =>
      Ok (fold_left (fun cur item => if PrimFloat.ltb item cur then item else cur)
                    t x)
  end.

(** [max(l)]: the running maximum is replaced when [item > maximum]. *)
Definition py_max (l : list float) : result float :=
  match l with
  | [] => Raise ValueError
  | x :: t =>
      Ok (fold_left (fun cur item => if PrimFloat.ltb cur item then item else cur)
                    t x)
  end.

(** [int(x)]: truncation towards zero; a NaN raises [ValueError], an
    infinity [OverflowError]. *)
Definition py_int (x : float) : result Z :=
  match Prim2SF x with
  | S754_nan => Raise ValueError
  | S754_infinity _ => Raise OverflowError
  | S754_zero _ => Ok 0%Z
  | S754_finite sign m e =>
      let magnitude :=
        if (0 <=? e)%Z then (Zpos m * 2 ^ e)%Z else (Zpos m / 2 ^ (- e))%Z in
      Ok (if sign then (- magnitude)%Z else magnitude)
  end.

(** [float(i)] for the index of a list. *)
Definition float_of_nat (i : nat) : float :=
  PrimFloat.of_uint63 (Uint63.of_Z (Z.of_nat i)).

Definition Pose : Type := Dict.t (float * float).

Definition Point3 : Type := (float * float * float)%type.

Fixpoint collect_visible (table : list (nat * string)) (joints_3d : list Point3)
    (visible : Pose) : result Pose :=
  match table with
  | [] => Ok visible
  | (smpl_idx, name) :: rest =>
      if (smpl_idx <? List.length joints_3d)%nat then
        match nth_error joints_3d smpl_idx with
        | Some (x, y, _) =>
            collect_visible rest joints_3d (Dict.set name (x, y) visible)
        | None => Raise IndexError
        end
      else collect_visible rest joints_3d visible
  end.

Fixpoint normalize_items (items : list (string * (float * float)))
    (min_x range_x min_y range_y : float) (normalized : Pose) : result Pose :=
  match items with
  | [] => Ok normalized
  | (name, (x, y)) :: rest =>
      nx <- py_div (x - min_x) range_x ;;
      qy <- py_div (y - min_y) range_y ;;
      normalize_items rest min_x range_x min_y range_y
        (Dict.set name (nx, 1 - qy) normalized)
  end.

Definition project_smpl_to_2d (joints_3d : list Point3) : result Pose :=
  visible <- collect_visible SMPL_TO_JOINT joints_3d [] ;;
  match visible with
  | [] => Ok []
  | _ :: _ =>
      let xs := map fst (Dict.values visible) in
      let ys := map snd (Dict.values visible) in
      min_x <- py_min xs ;;
      max_x <- py_max xs ;;
      min_y <- py_min ys ;;
      max_y <- py_max ys ;;
      let range_x := py_or (max_x - min_x) 1 in
      let range_y := py_or (max_y - min_y) 1 in
      normalize_items visible min_x range_x min_y range_y []
  end.

(** The two statements that synthesize the beat grid.  A list of [2^63]
    floats or more cannot be built. *)
Definition beat_grid (bpm duration : float) : result (list float) :=
  beat_interval <- py_div 60 bpm ;;
  q <- py_div duration beat_interval ;;
  n <- py_int q ;;
  if (n <? 2 ^ 63)%Z
  then Ok (map (fun i => float_of_nat i * beat_interval) (seq 0 (Z.to_nat n)))
  else Raise MemoryError.

(** [0 <= c <= 1] *)
Definition in_unit (c : float) : bool :=
  PrimFloat.leb 0 c && PrimFloat.leb c 1.

End F64.

(** ** Vocabulary of the statements *)

(** The raw point of a mapped joint: the table sends some index inside
    the array to [name], and the row at that index starts with [x, y]. *)
Definition raw_point (joints_3d : list Point3) (name : string) (x y : R) : Prop :=
  exists (smpl_idx : nat) (z : R),
    In (smpl_idx, name) SMPL_TO_JOINT /\
    nth_error joints_3d smpl_idx = Some (x, y, z).

(** The entries the first loop of [project_smpl_to_2d] visits and keeps. *)
Definition mapped_points (table : list (nat * string)) (joints_3d : list Point3)
    : Pose :=
  flat_map (fun e =>
              match nth_error joints_3d (fst e) with
              | Some (x, y, _) => [(snd e, (x, y))]
              | None => []
              end) table.

(** The normalised image of one raw point. *)
Definition normalized_point (min_x range_x min_y range_y : R)
    (kv : string * (R * R)) : string * (R * R) :=
  (fst kv, ((fst (snd kv) - min_x) / range_x,
            1 - (snd (snd kv) - min_y) / range_y)).

Definition in_unit (c : R) : Prop := 0 <= c <= 1.

(** Every joint of the pose is a canonical name at a point of the unit
    square. *)
Definition pose_ok (p : Pose) : Prop :=
  forall name x y, In (name, (x, y)) p ->
    In name JOINT_NAMES /\ in_unit x /\ in_unit y.

(** The sequencing policy in the words of the specification: for beat
    index [i], the move at position [(i div 4) mod 4] of the cycle, at
    phase [(i mod 4) / 4], with direction [+1] when [i div 4] is even. *)
Definition cycle : list Move := [ArmsUp; SideStep; WaveArms; SideStep].

Definition beat_move (i : nat) : Move :=
  nth ((i / 4) mod 4) cycle ArmsUp.

Definition beat_phase (i : nat) : R := INR (i mod 4) / 4.

Definition beat_direction (i : nat) : R :=
  if Nat.even (i / 4) then 1 else -1.

Definition beat_pose (i : nat) : Pose :=
  match beat_move i with
  | ArmsUp => arms_up (beat_phase i)
  | SideStep => side_step (beat_phase i) (beat_direction i)
  | WaveArms => wave_arms (beat_phase i)
  end.

(** The beats before the first one whose timestamp exceeds [duration]. *)
Fixpoint retained_beats (duration : R) (beat_times : list R) : list R :=
  match beat_times with
  | [] => []
  | b :: rest =>
      if Rgt_dec b duration then [] else b :: retained_beats duration rest
  end.

(** One keyframe per beat, the first beat having index [i]. *)
Fixpoint frames_from (i : nat) (beats : list R) : list Keyframe :=
  match beats with
  | [] => []
  | b :: rest => mkKeyframe b (beat_pose i) :: frames_from (S i) rest
  end.

(** The ML tier never falls back after printing a progress above that of
    the template-mode line (0.4): when it reports unavailable, it has
    printed at most "Loading EDGE model". *)
Definition ml_tier_regular (w : World) : Prop :=
  forall (bpm : R) (beat_times : list R),
    snd (try_edge_generation w bpm beat_times) = Ok None ->
    Forall (fun e => progress e <= 0.4)
           (fst (try_edge_generation w bpm beat_times)).

(** The beat grid is synthesized: beat detection gave no beats, or the
    analysis path failed. *)
Definition grid_synthesized (w : World) : Prop :=
  forall duration bpm beat_times,
    librosa_analysis w = Ok (duration, bpm, beat_times) -> beat_times = [].

(** Sample worlds.  In all of them the arguments parse, the input file
    exists and the output directory can be created; EDGE is installed only
    where said. *)
Definition sample_world (librosa : result (R * R * list R))
    (soundfile : result R) (edge_installed : bool)
    (inference : result (list (R * list Point3)))
    (choreo_write : result unit) : World :=
  {| parse_args := None;
     mp3_path := "song.mp3";
     error_text := fun e =>
       match e with
       | ZeroDivisionError => "float division by zero"
       | _ => "error"
       end;
     mp3_is_file := true;
     output_basename := "d41d8cd9";
     makedirs := Ok tt;
     librosa_analysis := librosa;
     soundfile_duration := soundfile;
     write_analysis := Ok tt;
     torch_import := if edge_installed then Ok tt else Raise ImportError;
     edge_find_spec := Ok edge_installed;
     edge_import := Ok tt;
     edge_model := Ok tt;
     edge_generate := inference;
     write_choreo := choreo_write |}.

(** Two detected beats, no EDGE, everything is written. *)
Definition plain_world : World :=
  sample_world (Ok (2, 120, [0; 1])) (Ok 2) false (Raise RuntimeError) (Ok tt).

(** As [plain_world], but [choreo.json] cannot be written. *)
Definition full_disk_world : World :=
  sample_world (Ok (2, 120, [0; 1])) (Ok 2) false (Raise RuntimeError)
               (Raise OSError).

(** librosa is missing; the metadata probe reports 1.2 seconds. *)
Definition short_clip_world : World :=
  sample_world (Raise ImportError) (Ok 1.2) false (Raise RuntimeError) (Ok tt).

(** EDGE is installed and its inference raises. *)
Definition failing_inference_world : World :=
  sample_world (Ok (2, 120, [0; 1])) (Ok 2) true (Raise RuntimeError) (Ok tt).

(** Progress values that never go down along the list. *)
Fixpoint nondecreasing (l : list R) : Prop :=
  match l with
  | [] => True
  | a :: t =>
      match t with
      | [] => True
      | b :: _ => a <= b /\ nondecreasing t
      end
  end.

(** The lines of the ML tier, in the order it prints them. *)
Definition edge_stages : Log :=
  [ mkEvent "Loading EDGE model" 0.35 None;
    mkEvent "Running EDGE inference" 0.5 None;
    mkEvent "Projecting to 2D" 0.75 None ].

(** The lines after the frames are known. *)
Definition saving_stages (w : World) : Log :=
  mkEvent "Saving choreography" 0.9 None ::
  match write_choreo w with
  | Ok _ => [mkEvent "Done" 1.0 None]
  | Raise _ => []
  end.

(** ** Vocabulary of the further properties *)

(** The first two coordinates of a row. *)
Definition row_xy (p : Point3) : R * R := (fst (fst p), snd (fst p)).

(** The table entries whose index is inside an array of [n] rows. *)
Definition entries_inside (n : nat) : list (nat * string) :=
  filter (fun e => (fst e <? n)%nat) SMPL_TO_JOINT.

(** [not (beat_time > duration)] *)
Definition within_duration (duration b : R) : bool :=
  if Rgt_dec b duration then false else true.

(** Neither librosa nor the metadata probe is available. *)
Definition no_audio_world : World :=
  sample_world (Raise ImportError) (Raise ImportError) false
               (Raise RuntimeError) (Ok tt).

(** EDGE is installed and yields one pose with both hips, at time 0.25. *)
Definition edge_world : World :=
  sample_world (Ok (2, 120, [0; 1])) (Ok 2) true
               (Ok [(0.25, [(9, 9, 9); (1, 2, 0); (3, 6, 0)])]) (Ok tt).

(** The progress lines [generate] and the ML tier can print. *)
Definition known_lines : Log :=
  [ mkEvent "Analyzing music" 0.1 None;
    mkEvent "Analyzing music (fallback)" 0.15 None;
    mkEvent "Generating moves" 0.3 None;
    mkEvent "Loading EDGE model" 0.35 None;
    mkEvent "Running EDGE inference" 0.5 None;
    mkEvent "Projecting to 2D" 0.75 None;
    mkEvent "Generating moves (template mode)" 0.4 None;
    mkEvent "Saving choreography" 0.9 None;
    mkEvent "Done" 1.0 None ].

(** The joints [left] and [right] are mirror images about the vertical
    line [x = 0.5]. *)
Definition mirrored (p : Pose) (left right : string) : Prop :=
  exists x y : R,
    Dict.get left p = Some (x, y) /\ Dict.get right p = Some (1 - x, y).

(** The joints [left] and [right] are images of each other under the half
    turn about the point [(0.5, cy)]. *)
Definition opposed (p : Pose) (cy : R) (left right : string) : Prop :=
  exists x y : R,
    Dict.get left p = Some (x, y) /\
    Dict.get right p = Some (1 - x, 2 * cy - y).

(** Raw coordinates far inside the range of binary64 (whose largest value
    is about 1.8e308): no difference of two of them overflows. *)
Definition moderate (joints_3d : list Point3) : Prop :=
  Forall (fun p => Rabs (fst (fst p)) <= 1e307 /\ Rabs (snd (fst p)) <= 1e307)
         joints_3d.

(** Every pose the inference yields is moderate. *)
Definition moderate_output (w : World) : Prop :=
  forall output,
    edge_generate w = Ok output -> Forall (fun tp => moderate (snd tp)) output.

(** ** Basic facts about the primitives *)

Lemma py_div_ok (a b : R) : b <> 0 -> py_div a b = Ok (a / b).
Proof.
  intros Hb. unfold py_div. destruct (Req_dec_T b 0) as [E | _]; [contradiction | reflexivity].
Qed.

Lemma py_div_zero (a : R) : py_div a 0 = Raise ZeroDivisionError.
Proof.
  unfold py_div. destruct (Req_dec_T 0 0) as [_ | N]; [reflexivity | now elim N].
Qed.

Lemma py_or_zero (b : R) : py_or 0 b = b.
Proof.
  unfold py_or. destruct (Req_dec_T 0 0) as [_ | N]; [reflexivity | now elim N].
Qed.

Lemma py_or_extent (a : R) : 0 <= a -> 0 < py_or a 1 /\ a <= py_or a 1.
Proof.
  intros Ha. unfold py_or. destruct (Req_dec_T a 0); lra.
Qed.

Lemma unit_fraction (a b : R) : 0 <= a <= b -> 0 < b -> 0 <= a / b <= 1.
Proof.
  intros [Ha Hab] Hb.
  assert (Hi : 0 < / b) by now apply Rinv_0_lt_compat.
  assert (Hone : b * / b = 1) by (apply Rinv_r; lra).
  assert (Hlow : 0 <= a * / b) by (apply Rmult_le_pos; lra).
  assert (Hupp : 0 <= (b - a) * / b) by (apply Rmult_le_pos; lra).
  unfold Rdiv. split; lra.
Qed.

Lemma normalized_coordinate (lo hi x : R) :
  lo <= x <= hi -> 0 <= (x - lo) / py_or (hi - lo) 1 <= 1.
Proof.
  intros [Hlo Hhi].
  destruct (py_or_extent (hi - lo)) as [Hpos Hle]; [lra |].
  apply unit_fraction; lra.
Qed.

Lemma fold_Rmin_le (t : list R) (x y : R) :
  In y (x :: t) -> fold_left Rmin t x <= y.
Proof.
  revert x y. induction t as [| a t IH]; intros x y H; simpl in *.
  - destruct H as [-> | []]. lra.
  - destruct H as [-> | [-> | H]].
    + eapply Rle_trans; [apply IH; now left | apply Rmin_l].
    + eapply Rle_trans; [apply IH; now left | apply Rmin_r].
    + apply IH. now right.
Qed.

Lemma fold_Rmax_ge (t : list R) (x y : R) :
  In y (x :: t) -> y <= fold_left Rmax t x.
Proof.
  revert x y. induction t as [| a t IH]; intros x y H; simpl in *.
  - destruct H as [-> | []]. lra.
  - destruct H as [-> | [-> | H]].
    + eapply Rle_trans; [apply Rmax_l | apply IH; now left].
    + eapply Rle_trans; [apply Rmax_r | apply IH; now left].
    + apply IH. now right.
Qed.

Lemma fold_Rmin_in (t : list R) (x : R) : In (fold_left Rmin t x) (x :: t).
Proof.
  revert x. induction t as [| a t IH]; intros x; simpl.
  - now left.
  - destruct (IH (Rmin x a)) as [E | H].
    + rewrite <- E. unfold Rmin. destruct (Rle_dec x a); auto.
    + right. now right.
Qed.

(** ** Dictionaries with unique keys *)

Lemma Dict_set_fresh {V : Type} (k : string) (v : V) (d : Dict.t V) :
  ~ In k (Dict.keys d) -> Dict.set k v d = d ++ [(k, v)].
Proof.
  induction d as [| [k' v'] d IH]; intros Hk; simpl in *.
  - reflexivity.
  - destruct (String.eqb_spec k k') as [-> | Hne].
    + exfalso. apply Hk. now left.
    + rewrite IH; [reflexivity |]. intros H. apply Hk. now right.
Qed.

Lemma Dict_get_in {V : Type} (k : string) (v : V) (d : Dict.t V) :
  NoDup (Dict.keys d) -> In (k, v) d -> Dict.get k d = Some v.
Proof.
  induction d as [| [k' v'] d IH]; intros Hnd Hin; simpl in *.
  - contradiction.
  - inversion Hnd as [| ? ? Hk' Hnd']; subst.
    destruct Hin as [E | Hin].
    + inversion E; subst. now rewrite String.eqb_refl.
    + destruct (String.eqb_spec k k') as [-> | _].
      * exfalso. apply Hk'. apply (in_map fst) in Hin. exact Hin.
      * now apply IH.
Qed.

Lemma Dict_keys_app {V : Type} (d1 d2 : Dict.t V) :
  Dict.keys (d1 ++ d2) = Dict.keys d1 ++ Dict.keys d2.
Proof. unfold Dict.keys. apply map_app. Qed.

(** ** The coordinate normalizer *)

Lemma SMPL_names_NoDup : NoDup (map snd SMPL_TO_JOINT).
Proof.
  simpl. repeat (constructor; [simpl; intuition discriminate |]). constructor.
Qed.

Lemma SMPL_names_canonical (idx : nat) (name : string) :
  In (idx, name) SMPL_TO_JOINT -> In name JOINT_NAMES.
Proof.
  unfold SMPL_TO_JOINT, JOINT_NAMES. simpl.
  intros H.
  repeat (destruct H as [H | H]; [inversion H; subst; tauto |]).
  contradiction.
Qed.

Lemma mapped_points_keys (table : list (nat * string)) (joints_3d : list Point3)
    (k : string) :
  In k (Dict.keys (mapped_points table joints_3d)) -> In k (map snd table).
Proof.
  induction table as [| [idx name] table IH]; simpl; intros H.
  - exact H.
  - unfold Dict.keys in H. rewrite map_app in H. apply in_app_or in H.
    destruct H as [H | H].
    + destruct (nth_error joints_3d idx) as [[[x y] z] |]; simpl in H.
      * destruct H as [<- | []]. now left.
      * contradiction.
    + right. now apply IH.
Qed.

Lemma mapped_points_NoDup (table : list (nat * string)) (joints_3d : list Point3) :
  NoDup (map snd table) -> NoDup (Dict.keys (mapped_points table joints_3d)).
Proof.
  induction table as [| [idx name] table IH]; simpl; intros Hnd.
  - constructor.
  - inversion Hnd as [| ? ? Hname Hnd']; subst.
    destruct (nth_error joints_3d idx) as [[[x y] z] |]; simpl.
    + constructor; [| now apply IH].
      intros H. apply Hname. eapply mapped_points_keys. exact H.
    + now apply IH.
Qed.

Lemma mapped_points_raw (joints_3d : list Point3) (name : string) (x y : R) :
  In (name, (x, y)) (mapped_points SMPL_TO_JOINT joints_3d) <->
  raw_point joints_3d name x y.
Proof.
  unfold mapped_points, raw_point. rewrite in_flat_map. split.
  - intros [[idx n] [Hin H]]. simpl in H.
    destruct (nth_error joints_3d idx) as [[[x' y'] z] |] eqn:E; simpl in H.
    + destruct H as [H | []]. inversion H; subst. exists idx, z. now split.
    + contradiction.
  - intros [idx [z [Hin E]]]. exists (idx, name). split; [exact Hin |].
    simpl. rewrite E. now left.
Qed.

Lemma collect_visible_spec (table : list (nat * string))
    (joints_3d : list Point3) (visible : Pose) :
  NoDup (map snd table) ->
  (forall k, In k (map snd table) -> ~ In k (Dict.keys visible)) ->
  collect_visible table joints_3d visible =
  Ok (visible ++ mapped_points table joints_3d).
Proof.
  revert visible.
  induction table as [| [idx name] table IH]; intros visible Hnd Hfresh; simpl.
  - now rewrite app_nil_r.
  - inversion Hnd as [| ? ? Hname Hnd']; subst.
    destruct (Nat.ltb_spec idx (List.length joints_3d)) as [Hlt | Hge].
    + destruct (nth_error joints_3d idx) as [[[x y] z] |] eqn:E.
      * rewrite Dict_set_fresh by (apply Hfresh; now left).
        rewrite IH; [now rewrite <- app_assoc | exact Hnd' |].
        intros k Hk. rewrite Dict_keys_app. intros H.
        apply in_app_or in H. destruct H as [H | H].
        -- revert H. apply Hfresh. now right.
        -- simpl in H. destruct H as [<- | []]. now apply Hname.
      * apply nth_error_None in E. lia.
    + apply nth_error_None in Hge. rewrite Hge. simpl.
      apply IH; [exact Hnd' |]. intros k Hk. apply Hfresh. now right.
Qed.

Lemma normalize_items_spec (items : list (string * (R * R)))
    (min_x range_x min_y range_y : R) (normalized : Pose) :
  range_x <> 0 -> range_y <> 0 ->
  NoDup (Dict.keys items) ->
  (forall k, In k (Dict.keys items) -> ~ In k (Dict.keys normalized)) ->
  normalize_items items min_x range_x min_y range_y normalized =
  Ok (normalized ++ map (normalized_point min_x range_x min_y range_y) items).
Proof.
  intros Hx Hy. revert normalized.
  induction items as [| [name [x y]] items IH]; intros normalized Hnd Hfresh; simpl.
  - now rewrite app_nil_r.
  - inversion Hnd as [| ? ? Hname Hnd']; subst.
    rewrite (py_div_ok _ _ Hx), (py_div_ok _ _ Hy). simpl.
    rewrite Dict_set_fresh by (apply Hfresh; now left).
    rewrite IH; [now rewrite <- app_assoc | exact Hnd' |].
    intros k Hk. rewrite Dict_keys_app. intros H.
    apply in_app_or in H. destruct H as [H | H].
    + revert H. apply Hfresh. now right.
    + simpl in H. destruct H as [<- | []]. now apply Hname.
Qed.

(** What [project_smpl_to_2d] returns, in closed form. *)
Lemma project_smpl_to_2d_closed_form (joints_3d : list Point3) :
  let visible := mapped_points SMPL_TO_JOINT joints_3d in
  match visible with
  | [] => project_smpl_to_2d joints_3d = Ok []
  | (_, (x0, y0)) :: rest =>
      let xs := map fst (Dict.values rest) in
      let ys := map snd (Dict.values rest) in
      let min_x := fold_left Rmin xs x0 in
      let max_x := fold_left Rmax xs x0 in
      let min_y := fold_left Rmin ys y0 in
      let max_y := fold_left Rmax ys y0 in
      project_smpl_to_2d joints_3d =
      Ok (map (normalized_point min_x (py_or (max_x - min_x) 1)
                                min_y (py_or (max_y - min_y) 1)) visible)
  end.
Proof.
  intros visible. unfold project_smpl_to_2d.
  rewrite collect_visible_spec; [| apply SMPL_names_NoDup | intros k _ []].
  rewrite app_nil_l. fold visible.
  assert (Hnd : NoDup (Dict.keys visible))
    by (apply mapped_points_NoDup, SMPL_names_NoDup).
  clearbody visible.
  destruct visible as [| [n0 [x0 y0]] rest]; [reflexivity |].
  cbn [rbind Dict.values map fst snd py_min py_max].
  set (xs := map fst (map snd rest)). set (ys := map snd (map snd rest)).
  assert (Hx : fold_left Rmin xs x0 <= fold_left Rmax xs x0).
  { eapply Rle_trans; [apply fold_Rmin_le | apply fold_Rmax_ge]; now left. }
  assert (Hy : fold_left Rmin ys y0 <= fold_left Rmax ys y0).
  { eapply Rle_trans; [apply fold_Rmin_le | apply fold_Rmax_ge]; now left. }
  rewrite normalize_items_spec; [reflexivity | | | exact Hnd | intros k _ []].
  - destruct (py_or_extent (fold_left Rmax xs x0 - fold_left Rmin xs x0)); lra.
  - destruct (py_or_extent (fold_left Rmax ys y0 - fold_left Rmin ys y0)); lra.
Qed.

Lemma pose_xs_in (p : Pose) (n : string) (x y : R) :
  In (n, (x, y)) p -> In x (map fst (Dict.values p)) /\ In y (map snd (Dict.values p)).
Proof.
  intros H. unfold Dict.values. split.
  - apply (in_map snd) in H. apply (in_map fst) in H. exact H.
  - apply (in_map snd) in H. apply (in_map snd) in H. exact H.
Qed.

Lemma pose_xs_from (p : Pose) (v : R) :
  In v (map fst (Dict.values p)) -> exists n y, In (n, (v, y)) p.
Proof.
  unfold Dict.values. rewrite map_map, in_map_iff.
  intros [[n [x y]] [E H]]. simpl in E. subst. now exists n, y.
Qed.

Lemma pose_ys_from (p : Pose) (v : R) :
  In v (map snd (Dict.values p)) -> exists n x, In (n, (x, v)) p.
Proof.
  unfold Dict.values. rewrite map_map, in_map_iff.
  intros [[n [x y]] [E H]]. simpl in E. subst. now exists n, x.
Qed.

Lemma normalized_keys (a b c d : R) (p : Pose) :
  Dict.keys (map (normalized_point a b c d) p) = Dict.keys p.
Proof.
  unfold Dict.keys. rewrite map_map. apply map_ext. now intros [n [x y]].
Qed.

Lemma Rabs_bound (x b : R) : Rabs x <= b -> - b <= x <= b.
Proof. unfold Rabs. destruct (Rcase_abs x); lra. Qed.

Lemma raw_point_moderate (joints_3d : list Point3) (name : string) (x y : R) :
  moderate joints_3d -> raw_point joints_3d name x y ->
  Rabs x <= 1e307 /\ Rabs y <= 1e307.
Proof.
  intros Hmod [idx [z [_ Hnth]]]. apply nth_error_In in Hnth.
  unfold moderate in Hmod. rewrite Forall_forall in Hmod.
  exact (Hmod _ Hnth).
Qed.

(** C1 (as stated, refuted). In binary64 the pose with hips at X = -1e308
    and X = 1e308 has an X extent that overflows to infinity, and the
    normalized X of the right hip is infinity / infinity, a NaN: it is not in
    [0,1]. *)
Lemma normalizer_overflow_counterexample :
  exists (pose : F64.Pose) (x y : float),
    F64.project_smpl_to_2d
      [(0, 0, 0); (-1e308, 0, 0); (1e308, 1, 0)]%float = Ok pose /\
    Dict.get "right_hip" pose = Some (x, y) /\
    PrimFloat.is_nan x = true /\
    F64.in_unit x = false.
Proof.
  do 3 eexists. split; [vm_compute; reflexivity |].
  split; [reflexivity |]. split; reflexivity.
Qed.

(** C1 (amended). On inputs whose raw coordinates are moderate (finite, of
    magnitude at most 1e307, so that the extents stay below 2e307 and no
    subtraction overflows) the coordinate normalizer never raises.  With no
    mapped joint inside the array it returns the empty mapping.  Otherwise
    every output coordinate lies in [0,1]; every mapped joint is present in
    the output; a joint whose raw X is minimal gets output X = 0; and on an
    axis of zero extent (all raw points share the coordinate) the extent is
    taken as 1.0, so a single repeated point goes to the corner (0, 1) and
    nothing divides by zero. *)
Theorem project_smpl_to_2d_normalizes (joints_3d : list Point3) :
  moderate joints_3d ->
  (forall n x y n' x' y',
     raw_point joints_3d n x y -> raw_point joints_3d n' x' y' ->
     Rabs (x - x') <= 2e307 /\ Rabs (y - y') <= 2e307) /\
  exists pose : Pose,
    project_smpl_to_2d joints_3d = Ok pose /\
    ((forall smpl_idx name, In (smpl_idx, name) SMPL_TO_JOINT ->
        (List.length joints_3d <= smpl_idx)%nat) -> pose = []) /\
    (forall name x y, In (name, (x, y)) pose -> in_unit x /\ in_unit y) /\
    (forall name x y, raw_point joints_3d name x y ->
       exists nx ny,
         Dict.get name pose = Some (nx, ny) /\
         ((forall name' x' y', raw_point joints_3d name' x' y' -> x <= x') ->
            nx = 0) /\
         ((forall name' x' y', raw_point joints_3d name' x' y' -> x' = x) ->
            nx = 0) /\
         ((forall name' x' y', raw_point joints_3d name' x' y' -> y' = y) ->
            ny = 1)).
Proof.
  intros Hmod. split.
  { intros n x y n' x' y' Hr Hr'.
    destruct (raw_point_moderate _ _ _ _ Hmod Hr) as [Hx Hy].
    destruct (raw_point_moderate _ _ _ _ Hmod Hr') as [Hx' Hy'].
    apply Rabs_bound in Hx, Hy, Hx', Hy'.
    split; apply Rabs_le; lra. }
  pose proof (project_smpl_to_2d_closed_form joints_3d) as Hcf.
  pose proof (mapped_points_raw joints_3d) as Hraw.
  assert (Hnd : NoDup (Dict.keys (mapped_points SMPL_TO_JOINT joints_3d)))
    by (apply mapped_points_NoDup, SMPL_names_NoDup).
  cbv zeta in Hcf.
  destruct (mapped_points SMPL_TO_JOINT joints_3d) as [| [n0 [x0 y0]] rest] eqn:E.
  - exists []. split; [exact Hcf |]. split; [reflexivity |]. split.
    + intros ? ? ? [].
    + intros name x y Hr. apply Hraw in Hr. destruct Hr.
  - set (vis := (n0, (x0, y0)) :: rest) in *.
    set (xs := map fst (Dict.values rest)) in *.
    set (ys := map snd (Dict.values rest)) in *.
    set (min_x := fold_left Rmin xs x0) in *.
    set (max_x := fold_left Rmax xs x0) in *.
    set (min_y := fold_left Rmin ys y0) in *.
    set (max_y := fold_left Rmax ys y0) in *.
    assert (Hbox : forall n x y, In (n, (x, y)) vis ->
              min_x <= x <= max_x /\ min_y <= y <= max_y).
    { intros n x y H. apply pose_xs_in in H. destruct H as [Hx Hy].
      repeat split;
        first [ now apply fold_Rmin_le | now apply fold_Rmax_ge ]. }
    eexists. split; [exact Hcf |]. split; [| split].
    + intros Hout. exfalso.
      assert (Hin : In (n0, (x0, y0)) vis) by now left.
      apply Hraw in Hin. destruct Hin as [idx [z [Hin Hnth]]].
      specialize (Hout _ _ Hin).
      assert (nth_error joints_3d idx <> None) by congruence.
      apply nth_error_Some in H. lia.
    + intros name x y Hin. apply in_map_iff in Hin.
      destruct Hin as [[n [rx ry]] [Heq Hin]].
      unfold normalized_point in Heq. simpl in Heq. inversion Heq; subst.
      destruct (Hbox _ _ _ Hin) as [Hx Hy].
      pose proof (normalized_coordinate _ _ _ Hx).
      pose proof (normalized_coordinate _ _ _ Hy).
      unfold in_unit. split; lra.
    + intros name x y Hr. apply Hraw in Hr.
      do 2 eexists. split; [| split; [| split]].
      * apply Dict_get_in; [now rewrite normalized_keys |].
        apply in_map_iff. exists (name, (x, y)). split; [reflexivity | exact Hr].
      * intros Hmin. simpl.
        destruct (pose_xs_from vis min_x) as [n' [y' Hin']];
          [apply fold_Rmin_in |].
        apply Hraw in Hin'. apply Hmin in Hin'.
        destruct (Hbox _ _ _ Hr) as [[Hlo _] _].
        replace (x - min_x) with 0 by lra. unfold Rdiv. ring.
      * intros Hsame. simpl.
        destruct (pose_xs_from vis min_x) as [n' [y' Hin']];
          [apply fold_Rmin_in |].
        apply Hraw in Hin'. apply Hsame in Hin'.
        replace (x - min_x) with 0 by lra. unfold Rdiv. ring.
      * intros Hsame. simpl.
        destruct (pose_ys_from vis min_y) as [n' [x' Hin']];
          [apply fold_Rmin_in |].
        apply Hraw in Hin'. apply Hsame in Hin'.
        replace (y - min_y) with 0 by lra. unfold Rdiv. ring.
Qed.

Ltac moderate_rows :=
  unfold moderate;
  repeat (apply Forall_cons; [split; apply Rabs_le; simpl; lra |]);
  apply Forall_nil.

Lemma moderate_sample : moderate [(9, 9, 9); (1, 2, 0); (3, 6, 0)].
Proof. moderate_rows. Qed.

Lemma project_smpl_to_2d_normalizes_witness :
  (forall n x y n' x' y',
     raw_point [(9, 9, 9); (1, 2, 0); (3, 6, 0)] n x y ->
     raw_point [(9, 9, 9); (1, 2, 0); (3, 6, 0)] n' x' y' ->
     Rabs (x - x') <= 2e307 /\ Rabs (y - y') <= 2e307) /\
  exists pose : Pose,
    project_smpl_to_2d [(9, 9, 9); (1, 2, 0); (3, 6, 0)] = Ok pose /\
    ((forall smpl_idx name, In (smpl_idx, name) SMPL_TO_JOINT ->
        (List.length [(9, 9, 9); (1, 2, 0); (3, 6, 0)] <= smpl_idx)%nat) ->
     pose = []) /\
    (forall name x y, In (name, (x, y)) pose -> in_unit x /\ in_unit y) /\
    (forall name x y,
       raw_point [(9, 9, 9); (1, 2, 0); (3, 6, 0)] name x y ->
       exists nx ny,
         Dict.get name pose = Some (nx, ny) /\
         ((forall name' x' y',
             raw_point [(9, 9, 9); (1, 2, 0); (3, 6, 0)] name' x' y' ->
             x <= x') -> nx = 0) /\
         ((forall name' x' y',
             raw_point [(9, 9, 9); (1, 2, 0); (3, 6, 0)] name' x' y' ->
             x' = x) -> nx = 0) /\
         ((forall name' x' y',
             raw_point [(9, 9, 9); (1, 2, 0); (3, 6, 0)] name' x' y' ->
             y' = y) -> ny = 1)).
Proof.
  apply (project_smpl_to_2d_normalizes [(9, 9, 9); (1, 2, 0); (3, 6, 0)]).
  exact moderate_sample.
Defined.

(** Two worked inputs: a pose with both hips, and a pose whose only mapped
    joint is the left hip. *)
Example project_two_hips :
  project_smpl_to_2d [(9, 9, 9); (1, 2, 0); (3, 6, 0)] =
  Ok [("left_hip", (0, 1)); ("right_hip", (1, 0))].
Proof.
  pose proof (project_smpl_to_2d_closed_form [(9, 9, 9); (1, 2, 0); (3, 6, 0)]) as H.
  cbn [mapped_points SMPL_TO_JOINT flat_map nth_error fst snd app
       Dict.values map fold_left] in H.
  rewrite H. clear H.
  assert (Hx : Rmin 1 3 = 1) by (unfold Rmin; destruct (Rle_dec 1 3); lra).
  assert (Hy : Rmin 2 6 = 2) by (unfold Rmin; destruct (Rle_dec 2 6); lra).
  assert (HX : Rmax 1 3 = 3) by (unfold Rmax; destruct (Rle_dec 1 3); lra).
  assert (HY : Rmax 2 6 = 6) by (unfold Rmax; destruct (Rle_dec 2 6); lra).
  rewrite Hx, Hy, HX, HY.
  unfold py_or, normalized_point.
  destruct (Req_dec_T (3 - 1) 0); [lra |].
  destruct (Req_dec_T (6 - 2) 0); [lra |].
  simpl. repeat f_equal; lra.
Qed.

Example project_single_point :
  project_smpl_to_2d [(9, 9, 9); (5, 7, 0)] = Ok [("left_hip", (0, 1))].
Proof.
  pose proof (project_smpl_to_2d_closed_form [(9, 9, 9); (5, 7, 0)]) as H.
  cbn [mapped_points SMPL_TO_JOINT flat_map nth_error fst snd app
       Dict.values map fold_left] in H.
  rewrite H. clear H.
  unfold py_or, normalized_point.
  destruct (Req_dec_T (5 - 5) 0); [| lra].
  destruct (Req_dec_T (7 - 7) 0); [| lra].
  simpl. repeat f_equal; lra.
Qed.

(** ** The procedural sequencer *)

Lemma move_beats_INR : INR move_beats = 4.
Proof. unfold move_beats. simpl. lra. Qed.

Lemma even_mod2 (n : nat) : ((n mod 2 =? 0)%nat) = Nat.even n.
Proof.
  destruct (Nat.even n) eqn:E.
  - apply Nat.even_spec in E. destruct E as [k ->].
    apply Nat.eqb_eq. rewrite Nat.mul_comm. apply Nat.Div0.mod_mul.
  - apply Nat.eqb_neq. intros H.
    assert (Hev : Nat.even n = true).
    { apply Nat.even_spec. exists (n / 2)%nat.
      rewrite (Nat.div_mod_eq n 2) at 1. lia. }
    congruence.
Qed.

(** The loop body computes the pose the sequencing policy names. *)
Lemma beat_joints_policy (i : nat) : beat_joints i = Ok (beat_pose i).
Proof.
  unfold beat_joints, beat_pose, beat_move, beat_phase, beat_direction.
  rewrite move_beats_INR, even_mod2.
  change (List.length move_sequence) with 4%nat.
  change move_beats with 4%nat.
  assert (Hlt : ((i / 4) mod 4 < 4)%nat) by (apply Nat.mod_upper_bound; lia).
  destruct ((i / 4) mod 4)%nat as [| [| [| [| n]]]]; try reflexivity; lia.
Qed.

Lemma sequence_beats_closed_form (beat_times : list R) (duration : R) :
  forall (i : nat) (frames : list Keyframe),
    sequence_beats i beat_times duration frames =
    Ok (frames ++ frames_from i (retained_beats duration beat_times)).
Proof.
  induction beat_times as [| b rest IH]; intros i frames; simpl.
  - now rewrite app_nil_r.
  - destruct (Rgt_dec b duration) as [Hgt | Hle].
    + now rewrite app_nil_r.
    + rewrite beat_joints_policy. simpl. rewrite IH.
      now rewrite <- app_assoc.
Qed.

Lemma generate_template_choreo_closed_form (bpm : R) (beat_times : list R)
    (duration : R) :
  bpm <> 0 ->
  generate_template_choreo bpm beat_times duration =
  Ok (frames_from 0 (retained_beats duration beat_times)).
Proof.
  intros Hbpm. unfold generate_template_choreo.
  rewrite (py_div_ok _ _ Hbpm). simpl.
  now rewrite sequence_beats_closed_form.
Qed.

Lemma frames_from_nth (beats : list R) :
  forall (i k : nat) (kf : Keyframe),
    nth_error (frames_from i beats) k = Some kf ->
    joints kf = beat_pose (i + k) /\ nth_error beats k = Some (timestamp kf).
Proof.
  induction beats as [| b rest IH]; intros i k kf H; simpl in H.
  - destruct k; discriminate.
  - destruct k as [| k]; simpl in *.
    + inversion H; subst. simpl. rewrite Nat.add_0_r. now split.
    + apply IH in H. now rewrite Nat.add_succ_r.
Qed.

Lemma frames_from_timestamps (beats : list R) (i : nat) :
  map timestamp (frames_from i beats) = beats.
Proof.
  revert i. induction beats as [| b rest IH]; intros i; simpl.
  - reflexivity.
  - now rewrite IH.
Qed.

Lemma retained_beats_prefix (duration : R) (beat_times : list R) :
  exists dropped,
    beat_times = retained_beats duration beat_times ++ dropped /\
    Forall (fun b => b <= duration) (retained_beats duration beat_times) /\
    match dropped with
    | [] => True
    | b :: _ => b > duration
    end.
Proof.
  induction beat_times as [| b rest IH]; simpl.
  - exists []. repeat split. constructor.
  - destruct (Rgt_dec b duration) as [Hgt | Hle].
    + exists (b :: rest). repeat split; [constructor | exact Hgt].
    + destruct IH as [dropped [Heq [Hall Hd]]].
      exists dropped. split; [simpl; now rewrite <- Heq |].
      split; [constructor; [lra | exact Hall] | exact Hd].
Qed.

Lemma retained_beats_nth (duration : R) (beat_times : list R) :
  forall (k : nat) (b : R),
    nth_error (retained_beats duration beat_times) k = Some b ->
    nth_error beat_times k = Some b.
Proof.
  induction beat_times as [| a rest IH]; intros k b H; simpl in *.
  - destruct k; discriminate.
  - destruct (Rgt_dec a duration).
    + destruct k; discriminate.
    + destruct k as [| k]; simpl in *; [exact H | now apply IH].
Qed.

Ltac all_beats_within :=
  repeat (apply Forall_cons; [lra |]); apply Forall_nil.

Lemma retained_all (duration : R) (beat_times : list R) :
  Forall (fun b => b <= duration) beat_times ->
  retained_beats duration beat_times = beat_times.
Proof.
  induction 1 as [| b rest Hb _ IH]; simpl.
  - reflexivity.
  - destruct (Rgt_dec b duration); [lra | now rewrite IH].
Qed.

Lemma left_elbow_arms_up (t : R) :
  Dict.get "left_elbow" (arms_up t) =
  Some (0.30, 0.22 - Rabs (sin (t * PI)) * 0.10).
Proof. reflexivity. Qed.

Lemma left_elbow_side_step (t direction : R) :
  Dict.get "left_elbow" (side_step t direction) = Some (0.20, 0.35).
Proof. reflexivity. Qed.

Lemma retained_beats_within (duration : R) (beat_times : list R) :
  forall (i : nat) (b : R),
    nth_error beat_times i = Some b ->
    Forall (fun t => t <= duration) (firstn (S i) beat_times) ->
    nth_error (retained_beats duration beat_times) i = Some b.
Proof.
  induction beat_times as [| a rest IH]; intros i b Hnth Hall.
  - destruct i; discriminate.
  - cbn [firstn] in Hall. inversion Hall as [| ? ? Ha Hrest]; subst.
    cbn [retained_beats]. destruct (Rgt_dec a duration); [lra |].
    destruct i as [| i]; [exact Hnth |].
    cbn [nth_error] in *. now apply IH.
Qed.

Lemma frames_from_at (beats : list R) :
  forall (s i : nat) (b : R),
    nth_error beats i = Some b ->
    nth_error (frames_from s beats) i = Some (mkKeyframe b (beat_pose (s + i))).
Proof.
  induction beats as [| a rest IH]; intros s i b H.
  - destruct i; discriminate.
  - destruct i as [| i]; cbn [nth_error frames_from] in *.
    + inversion H. now rewrite Nat.add_0_r.
    + rewrite (IH (S s) i b H). now rewrite Nat.add_succ_r.
Qed.

(** C2. Every beat the sequencer reaches (no beat up to it exceeds the
    duration) has its keyframe, at the beat's position [i] in the output and
    with the beat's time, whose pose is that of the move at position
    [(i div 4) mod 4] of the cycle [armsUp, sideStep, waveArms, sideStep],
    evaluated at phase [(i mod 4) / 4]; the direction, [+1] when [i div 4] is
    even and [-1] otherwise, reaches [sideStep] only. *)
Theorem sequencer_policy (bpm : R) (beat_times : list R) (duration : R)
    (i : nat) (b : R) :
  bpm <> 0 ->
  nth_error beat_times i = Some b ->
  Forall (fun t => t <= duration) (firstn (S i) beat_times) ->
  exists (frames : list Keyframe) (kf : Keyframe),
    generate_template_choreo bpm beat_times duration = Ok frames /\
    nth_error frames i = Some kf /\
    timestamp kf = b /\
    joints kf =
      match nth ((i / 4) mod 4) [ArmsUp; SideStep; WaveArms; SideStep] ArmsUp with
      | ArmsUp => arms_up (INR (i mod 4) / 4)
      | SideStep =>
          side_step (INR (i mod 4) / 4) (if Nat.even (i / 4) then 1 else -1)
      | WaveArms => wave_arms (INR (i mod 4) / 4)
      end.
Proof.
  intros Hbpm Hnth Hall.
  exists (frames_from 0 (retained_beats duration beat_times)),
         (mkKeyframe b (beat_pose i)).
  split; [now apply generate_template_choreo_closed_form |].
  split; [| split; reflexivity].
  apply (frames_from_at _ 0 i b).
  now apply retained_beats_within.
Qed.

Lemma sequencer_policy_witness :
  exists (frames : list Keyframe) (kf : Keyframe),
    generate_template_choreo 120
      [0; 1; 2; 3; 4; 5; 6; 7; 8; 9; 10; 11; 12; 13; 14; 15] 15 = Ok frames /\
    nth_error frames 13 = Some kf /\
    timestamp kf = 13 /\
    joints kf =
      match nth ((13 / 4) mod 4) [ArmsUp; SideStep; WaveArms; SideStep] ArmsUp with
      | ArmsUp => arms_up (INR (13 mod 4) / 4)
      | SideStep =>
          side_step (INR (13 mod 4) / 4) (if Nat.even (13 / 4) then 1 else -1)
      | WaveArms => wave_arms (INR (13 mod 4) / 4)
      end.
Proof.
  apply (sequencer_policy 120
           [0; 1; 2; 3; 4; 5; 6; 7; 8; 9; 10; 11; 12; 13; 14; 15] 15 13 13).
  - lra.
  - reflexivity.
  - cbn [firstn]. all_beats_within.
Defined.

(** The frames of sixteen beats, one cycle of the four moves: four of
    armsUp, four of sideStep, four of waveArms, four of sideStep, each at
    the phases 0, 0.25, 0.5, 0.75, and sideStep with direction -1. *)
Example sequencer_one_cycle :
  generate_template_choreo 120
    [0; 1; 2; 3; 4; 5; 6; 7; 8; 9; 10; 11; 12; 13; 14; 15] 15 =
  Ok [ mkKeyframe 0 (arms_up 0); mkKeyframe 1 (arms_up 0.25);
       mkKeyframe 2 (arms_up 0.5); mkKeyframe 3 (arms_up 0.75);
       mkKeyframe 4 (side_step 0 (-1)); mkKeyframe 5 (side_step 0.25 (-1));
       mkKeyframe 6 (side_step 0.5 (-1)); mkKeyframe 7 (side_step 0.75 (-1));
       mkKeyframe 8 (wave_arms 0); mkKeyframe 9 (wave_arms 0.25);
       mkKeyframe 10 (wave_arms 0.5); mkKeyframe 11 (wave_arms 0.75);
       mkKeyframe 12 (side_step 0 (-1)); mkKeyframe 13 (side_step 0.25 (-1));
       mkKeyframe 14 (side_step 0.5 (-1)); mkKeyframe 15 (side_step 0.75 (-1)) ].
Proof.
  rewrite generate_template_choreo_closed_form by lra.
  rewrite retained_all by all_beats_within.
  assert (P0 : INR 0 / 4 = 0) by (simpl; lra).
  assert (P1 : INR 1 / 4 = 0.25) by (simpl; lra).
  assert (P2 : INR 2 / 4 = 0.5) by (simpl; lra).
  assert (P3 : INR 3 / 4 = 0.75) by (simpl; lra).
  unfold frames_from, beat_pose, beat_move, beat_phase, beat_direction.
  repeat match goal with
         | |- context [(?n mod 4)%nat] =>
             let v := eval vm_compute in (n mod 4)%nat in
             change (n mod 4)%nat with v
         end.
  rewrite P0, P1, P2, P3. reflexivity.
Qed.

(** C3 (as stated, refuted). On beats 0..7 the sequencer does not emit the
    poses of armsUp, sideStep(+1), waveArms, sideStep(+1), armsUp,
    sideStep(-1), waveArms, sideStep(-1), whatever the phases: beat 1 is
    still inside the first move, armsUp. *)
Lemma sequencer_cycling_counterexample :
  ~ exists t0 t1 t2 t3 t4 t5 t6 t7 : R,
      generate_template_choreo 120 [0; 1; 2; 3; 4; 5; 6; 7] 7 =
      Ok [ mkKeyframe 0 (arms_up t0);
           mkKeyframe 1 (side_step t1 1);
           mkKeyframe 2 (wave_arms t2);
           mkKeyframe 3 (side_step t3 1);
           mkKeyframe 4 (arms_up t4);
           mkKeyframe 5 (side_step t5 (-1));
           mkKeyframe 6 (wave_arms t6);
           mkKeyframe 7 (side_step t7 (-1)) ].
Proof.
  intros [t0 [t1 [t2 [t3 [t4 [t5 [t6 [t7 H]]]]]]]].
  rewrite generate_template_choreo_closed_form in H by lra.
  rewrite retained_all in H by all_beats_within.
  simpl frames_from in H.
  assert (Hpose : beat_pose 1 = side_step t1 1) by congruence.
  assert (Hget : Dict.get "left_elbow" (beat_pose 1) =
                 Dict.get "left_elbow" (side_step t1 1)) by now rewrite Hpose.
  change (beat_pose 1) with (arms_up (beat_phase 1)) in Hget.
  rewrite left_elbow_arms_up, left_elbow_side_step in Hget.
  assert (Hx : 0.30 = 0.20) by congruence.
  lra.
Qed.

(** C3 (amended). On beats 0..7, with a duration of at least 7, beats 0-3
    all use armsUp, at phases 0, 0.25, 0.5, 0.75, and beats 4-7 all use
    sideStep, at the same phases, with direction -1. *)
Theorem sequencer_cycling_by_move (bpm duration : R) :
  bpm <> 0 -> 7 <= duration ->
  generate_template_choreo bpm [0; 1; 2; 3; 4; 5; 6; 7] duration =
  Ok [ mkKeyframe 0 (arms_up 0);
       mkKeyframe 1 (arms_up 0.25);
       mkKeyframe 2 (arms_up 0.5);
       mkKeyframe 3 (arms_up 0.75);
       mkKeyframe 4 (side_step 0 (-1));
       mkKeyframe 5 (side_step 0.25 (-1));
       mkKeyframe 6 (side_step 0.5 (-1));
       mkKeyframe 7 (side_step 0.75 (-1)) ].
Proof.
  intros Hbpm Hd.
  rewrite generate_template_choreo_closed_form by exact Hbpm.
  rewrite retained_all by all_beats_within.
  assert (P0 : INR 0 / 4 = 0) by (simpl; lra).
  assert (P1 : INR 1 / 4 = 0.25) by (simpl; lra).
  assert (P2 : INR 2 / 4 = 0.5) by (simpl; lra).
  assert (P3 : INR 3 / 4 = 0.75) by (simpl; lra).
  unfold frames_from, beat_pose, beat_move, beat_phase, beat_direction.
  change (0 mod 4)%nat with 0%nat. change (1 mod 4)%nat with 1%nat.
  change (2 mod 4)%nat with 2%nat. change (3 mod 4)%nat with 3%nat.
  change (4 mod 4)%nat with 0%nat. change (5 mod 4)%nat with 1%nat.
  change (6 mod 4)%nat with 2%nat. change (7 mod 4)%nat with 3%nat.
  rewrite P0, P1, P2, P3. reflexivity.
Qed.

Lemma sequencer_cycling_by_move_witness :
  generate_template_choreo 120 [0; 1; 2; 3; 4; 5; 6; 7] 7 =
  Ok [ mkKeyframe 0 (arms_up 0);
       mkKeyframe 1 (arms_up 0.25);
       mkKeyframe 2 (arms_up 0.5);
       mkKeyframe 3 (arms_up 0.75);
       mkKeyframe 4 (side_step 0 (-1));
       mkKeyframe 5 (side_step 0.25 (-1));
       mkKeyframe 6 (side_step 0.5 (-1));
       mkKeyframe 7 (side_step 0.75 (-1)) ].
Proof.
  apply (sequencer_cycling_by_move 120 7); lra.
Defined.

Lemma retained_example :
  retained_beats 1.2 [0; 0.5; 1.0; 1.5; 2.0] = [0; 0.5; 1.0].
Proof.
  simpl.
  repeat match goal with
         | |- context [Rgt_dec ?a ?b] => destruct (Rgt_dec a b); try lra
         end.
  reflexivity.
Qed.

(** C4. The sequencer walks the beat times in order and stops at the first
    one strictly greater than the duration: the timestamps of its frames are
    the beats before that one, a keyframe each, and what follows is dropped.
    For beat times 0, 0.5, 1.0, 1.5, 2.0 and duration 1.2 it returns exactly
    three frames, at 0, 0.5 and 1.0. *)
Theorem sequencer_truncation (bpm : R) :
  bpm <> 0 ->
  (forall (beat_times : list R) (duration : R),
     exists (frames : list Keyframe) (dropped : list R),
       generate_template_choreo bpm beat_times duration = Ok frames /\
       beat_times = map timestamp frames ++ dropped /\
       Forall (fun b => b <= duration) (map timestamp frames) /\
       match dropped with
       | [] => True
       | b :: _ => b > duration
       end) /\
  (exists frames : list Keyframe,
     generate_template_choreo bpm [0; 0.5; 1.0; 1.5; 2.0] 1.2 = Ok frames /\
     List.length frames = 3%nat /\
     map timestamp frames = [0; 0.5; 1.0]).
Proof.
  intros Hbpm. split.
  - intros beat_times duration.
    destruct (retained_beats_prefix duration beat_times) as [dropped [Heq [Hall Hd]]].
    exists (frames_from 0 (retained_beats duration beat_times)), dropped.
    rewrite frames_from_timestamps.
    split; [now apply generate_template_choreo_closed_form |].
    now repeat split.
  - eexists. split; [now apply generate_template_choreo_closed_form |].
    rewrite retained_example. split; reflexivity.
Qed.

Lemma sequencer_truncation_witness :
  (forall (beat_times : list R) (duration : R),
     exists (frames : list Keyframe) (dropped : list R),
       generate_template_choreo 120 beat_times duration = Ok frames /\
       beat_times = map timestamp frames ++ dropped /\
       Forall (fun b => b <= duration) (map timestamp frames) /\
       match dropped with
       | [] => True
       | b :: _ => b > duration
       end) /\
  (exists frames : list Keyframe,
     generate_template_choreo 120 [0; 0.5; 1.0; 1.5; 2.0] 1.2 = Ok frames /\
     List.length frames = 3%nat /\
     map timestamp frames = [0; 0.5; 1.0]).
Proof.
  apply (sequencer_truncation 120). lra.
Defined.

(** C10. The output of the sequencer does not depend on [bpm]: any two
    non-zero tempi give the same result on the same beat times and duration.
    A zero [bpm] raises a division error, though the interval it would
    define is never read. *)
Theorem sequencer_ignores_bpm (bpm bpm' : R) (beat_times : list R)
    (duration : R) :
  bpm <> 0 -> bpm' <> 0 ->
  generate_template_choreo bpm beat_times duration =
  generate_template_choreo bpm' beat_times duration /\
  generate_template_choreo 0 beat_times duration = Raise ZeroDivisionError.
Proof.
  intros H H'. split.
  - now rewrite !generate_template_choreo_closed_form.
  - unfold generate_template_choreo. now rewrite py_div_zero.
Qed.

Lemma sequencer_ignores_bpm_witness :
  generate_template_choreo 120 [0; 0.5; 1.0] 2 =
  generate_template_choreo 90 [0; 0.5; 1.0] 2 /\
  generate_template_choreo 0 [0; 0.5; 1.0] 2 = Raise ZeroDivisionError.
Proof.
  apply (sequencer_ignores_bpm 120 90); lra.
Defined.

(** ** Poses of the template moves *)

Lemma lift_bounds (t : R) : 0 <= Rabs (sin t) <= 1.
Proof.
  split; [apply Rabs_pos |].
  apply Rabs_le. apply SIN_bound.
Qed.

Ltac canonical_name := simpl; repeat (first [left; reflexivity | right]).

Ltac check_pose :=
  let name := fresh "name" in
  let x := fresh "x" in
  let y := fresh "y" in
  let Hin := fresh "Hin" in
  intros name x y Hin; unfold pt in Hin; simpl in Hin;
  repeat (destruct Hin as [Hin | Hin];
          [ inversion Hin; subst; clear Hin;
            split; [canonical_name | unfold in_unit; split; lra] |]);
  contradiction.

Lemma base_pose_ok : pose_ok base_pose.
Proof. unfold base_pose. check_pose. Qed.

Lemma arms_up_ok (t : R) : pose_ok (arms_up t).
Proof.
  unfold arms_up, base_pose.
  pose proof (lift_bounds (t * PI)) as Hl.
  generalize dependent (Rabs (sin (t * PI))). intros lift Hl.
  check_pose.
Qed.

Lemma side_step_ok (t direction : R) :
  direction = 1 \/ direction = -1 -> pose_ok (side_step t direction).
Proof.
  intros Hd. unfold side_step, shift_all, base_pose.
  pose proof (lift_bounds (t * PI)) as Hl.
  generalize dependent (Rabs (sin (t * PI))). intros lift Hl.
  destruct Hd as [-> | ->]; check_pose.
Qed.

Lemma wave_arms_ok (t : R) : pose_ok (wave_arms t).
Proof.
  unfold wave_arms, base_pose.
  pose proof (SIN_bound (t * PI * 2)) as Hw.
  generalize dependent (sin (t * PI * 2)). intros wave Hw.
  check_pose.
Qed.

Lemma beat_pose_ok (i : nat) : pose_ok (beat_pose i).
Proof.
  unfold beat_pose. destruct (beat_move i).
  - apply arms_up_ok.
  - apply side_step_ok. unfold beat_direction.
    destruct (Nat.even (i / 4)); auto.
  - apply wave_arms_ok.
Qed.

Lemma frames_from_ok (beats : list R) (i : nat) :
  Forall (fun kf => pose_ok (joints kf)) (frames_from i beats).
Proof.
  revert i. induction beats as [| b rest IH]; intros i; simpl; constructor.
  - apply beat_pose_ok.
  - apply IH.
Qed.

(** ** Poses of the ML tier *)

Lemma project_smpl_to_2d_total (joints_3d : list Point3) :
  exists pose : Pose, project_smpl_to_2d joints_3d = Ok pose /\ pose_ok pose.
Proof.
  pose proof (project_smpl_to_2d_closed_form joints_3d) as Hcf.
  pose proof (mapped_points_raw joints_3d) as Hraw.
  cbv zeta in Hcf.
  destruct (mapped_points SMPL_TO_JOINT joints_3d) as [| [n0 [x0 y0]] rest].
  - exists []. split; [exact Hcf |]. intros ? ? ? [].
  - eexists. split; [exact Hcf |].
    intros name x y Hin. apply in_map_iff in Hin.
    destruct Hin as [[n [rx ry]] [Heq Hin]].
    unfold normalized_point in Heq. simpl in Heq. inversion Heq; subst.
    split.
    + apply Hraw in Hin. destruct Hin as [idx [z [Htab _]]].
      eapply SMPL_names_canonical. exact Htab.
    + apply pose_xs_in in Hin. destruct Hin as [Hx Hy].
      assert (Bx : fold_left Rmin (map fst (Dict.values rest)) x0 <= rx
                   <= fold_left Rmax (map fst (Dict.values rest)) x0)
        by (split; [now apply fold_Rmin_le | now apply fold_Rmax_ge]).
      assert (By : fold_left Rmin (map snd (Dict.values rest)) y0 <= ry
                   <= fold_left Rmax (map snd (Dict.values rest)) y0)
        by (split; [now apply fold_Rmin_le | now apply fold_Rmax_ge]).
      pose proof (normalized_coordinate _ _ _ Bx).
      pose proof (normalized_coordinate _ _ _ By).
      unfold in_unit. split; lra.
Qed.

Lemma project_frames_ok (output : list (R * list Point3)) :
  forall frames : list Keyframe,
    Forall (fun kf => pose_ok (joints kf)) frames ->
    exists frames',
      project_frames output frames = Ok frames' /\
      Forall (fun kf => pose_ok (joints kf)) frames'.
Proof.
  induction output as [| [t pose_3d] rest IH]; intros frames Hall; simpl.
  - now exists frames.
  - destruct (project_smpl_to_2d_total pose_3d) as [pose [-> Hok]]. simpl.
    destruct pose as [| entry pose'].
    + now apply IH.
    + apply IH. apply Forall_app. split; [exact Hall |].
      constructor; [exact Hok | constructor].
Qed.

(** What the ML tier returns, by cases on the world. *)
Lemma try_edge_generation_result (w : World) (bpm : R) (beat_times : list R) :
  snd (try_edge_generation w bpm beat_times) =
  Ok match torch_import w, edge_find_spec w, edge_import w, edge_model w,
           edge_generate w with
     | Ok _, Ok true, Ok _, Ok _, Ok output =>
         match project_frames output [] with
         | Ok (kf :: frames) => Some (kf :: frames)
         | _ => None
         end
     | _, _, _, _, _ => None
     end.
Proof.
  unfold try_edge_generation, try_except, bind, lift, ret, emit_progress.
  destruct (torch_import w); [| reflexivity].
  destruct (edge_find_spec w) as [[|] |]; try reflexivity. simpl.
  destruct (edge_import w); [| reflexivity]. simpl.
  destruct (edge_model w); [| reflexivity]. simpl.
  destruct (edge_generate w) as [output |]; [| reflexivity]. simpl.
  destruct (project_frames output []) as [[| kf frames] |]; reflexivity.
Qed.

(** C6. The ML tier never raises: whatever the world answers, it returns
    normally, with either None or a non-empty list of keyframes.  A missing
    dependency, a failure to build the model, an inference error, a
    projection error and an empty list of frames after skipping all give
    None. *)
Theorem try_edge_generation_never_raises (w : World) (bpm : R)
    (beat_times : list R) :
  exists r : option (list Keyframe),
    snd (try_edge_generation w bpm beat_times) = Ok r /\
    (r = None \/ exists kf frames, r = Some (kf :: frames)) /\
    ((exists e, torch_import w = Raise e) \/
     (exists e, edge_find_spec w = Raise e) \/
     edge_find_spec w = Ok false \/
     (exists e, edge_import w = Raise e) \/
     (exists e, edge_model w = Raise e) \/
     (exists e, edge_generate w = Raise e) \/
     (exists output, edge_generate w = Ok output /\
                     (project_frames output [] = Ok [] \/
                      exists e, project_frames output [] = Raise e)) ->
     r = None).
Proof.
  eexists. split; [apply try_edge_generation_result |]. split.
  - destruct (torch_import w), (edge_find_spec w) as [[|] |],
      (edge_import w), (edge_model w), (edge_generate w) as [output |]; auto.
    destruct (project_frames output []) as [[| kf frames] |]; eauto.
  - intros [[e H] | [[e H] | [H | [[e H] | [[e H] | [[e H] |
             [out [H [H' | [e H']]]]]]]]]];
      rewrite H; try rewrite H';
      destruct (torch_import w); try reflexivity;
      destruct (edge_find_spec w) as [[|] |]; try reflexivity;
      destruct (edge_import w); try reflexivity;
      destruct (edge_model w); try reflexivity;
      try discriminate.
Qed.

(** ** The orchestrator *)

Arguments generate_template_choreo : simpl never.
Arguments try_edge_generation : simpl never.
Arguments analyze_music : simpl never.
Arguments beat_grid : simpl never.

(** The result of [generate], by cases on its stages. *)
Lemma generate_result (w : World) :
  snd (generate w) =
  (_ <- makedirs w ;;
   a <- snd (analyze_music w) ;;
   _ <- write_analysis w ;;
   edge <- snd (try_edge_generation w (a_bpm a) (a_beat_times a)) ;;
   frames <- match edge with
             | Some frames => Ok frames
             | None => generate_template_choreo
                         (a_bpm a) (a_beat_times a) (a_duration a)
             end ;;
   _ <- write_choreo w ;;
   Ok (mkChoreography (output_basename w) (a_bpm a) (a_duration a) frames)).
Proof.
  unfold generate, bind, lift, ret, emit_progress.
  destruct (makedirs w) as [u0 |]; [| reflexivity]. simpl.
  destruct (analyze_music w) as [l1 [a |]]; [| reflexivity]. simpl.
  destruct (write_analysis w) as [u1 |]; [| reflexivity]. simpl.
  destruct (try_edge_generation w (a_bpm a) (a_beat_times a))
    as [l2 [[fs |] |]]; simpl; try reflexivity.
  - destruct (write_choreo w); reflexivity.
  - destruct (generate_template_choreo (a_bpm a) (a_beat_times a) (a_duration a));
      simpl; [| reflexivity].
    destruct (write_choreo w); reflexivity.
Qed.

(** C5. When the ML tier returns None, the frames of the choreography the
    orchestrator assembles are exactly what the sequencer returns for the
    tempo, beat times and duration of the analysis; and the orchestrator
    does assemble it whenever the sequencer returns and the files can be
    written. *)
Theorem fallback_uses_sequencer (w : World) (a : AnalysisResult) :
  snd (analyze_music w) = Ok a ->
  snd (try_edge_generation w (a_bpm a) (a_beat_times a)) = Ok None ->
  (forall choreo : Choreography,
     snd (generate w) = Ok choreo ->
     generate_template_choreo (a_bpm a) (a_beat_times a) (a_duration a) =
     Ok (frames choreo)) /\
  (forall fs : list Keyframe,
     makedirs w = Ok tt -> write_analysis w = Ok tt -> write_choreo w = Ok tt ->
     generate_template_choreo (a_bpm a) (a_beat_times a) (a_duration a) = Ok fs ->
     snd (generate w) =
     Ok (mkChoreography (output_basename w) (a_bpm a) (a_duration a) fs)).
Proof.
  intros Ha He. rewrite generate_result, Ha. simpl. rewrite He. simpl. split.
  - intros choreo.
    destruct (makedirs w) as [u0 |]; simpl; [| discriminate].
    destruct (write_analysis w) as [u1 |]; simpl; [| discriminate].
    destruct (generate_template_choreo (a_bpm a) (a_beat_times a) (a_duration a));
      simpl; [| discriminate].
    destruct (write_choreo w); simpl; [| discriminate].
    intros H. inversion H. reflexivity.
  - intros fs -> -> -> ->. reflexivity.
Qed.

Lemma plain_world_analysis :
  snd (analyze_music plain_world) = Ok (mkAnalysis 120 2 [0; 1]).
Proof. reflexivity. Qed.

Lemma no_edge_unavailable (w : World) (bpm : R) (beat_times : list R) :
  edge_find_spec w = Ok false ->
  snd (try_edge_generation w bpm beat_times) = Ok None.
Proof.
  intros H. rewrite try_edge_generation_result, H.
  destruct (torch_import w); reflexivity.
Qed.

Lemma fallback_uses_sequencer_witness :
  (forall choreo : Choreography,
     snd (generate plain_world) = Ok choreo ->
     generate_template_choreo 120 [0; 1] 2 = Ok (frames choreo)) /\
  (forall fs : list Keyframe,
     makedirs plain_world = Ok tt -> write_analysis plain_world = Ok tt ->
     write_choreo plain_world = Ok tt ->
     generate_template_choreo 120 [0; 1] 2 = Ok fs ->
     snd (generate plain_world) = Ok (mkChoreography "d41d8cd9" 120 2 fs)).
Proof.
  apply (fallback_uses_sequencer plain_world (mkAnalysis 120 2 [0; 1])).
  - exact plain_world_analysis.
  - now apply no_edge_unavailable.
Defined.

(** C8 (as stated, refuted). In binary64 the pose with hips at Y = -1e308
    and Y = 1e308 has a Y extent that overflows to infinity: the normalizer
    returns a NaN for the Y of the right hip, a coordinate outside [0,1] in a
    non-empty pose, which the ML tier would put in a keyframe. *)
Lemma keyframe_overflow_counterexample :
  exists (pose : F64.Pose) (x y : float),
    F64.project_smpl_to_2d
      [(0, 0, 0); (0, -1e308, 0); (1, 1e308, 0)]%float = Ok pose /\
    Dict.get "right_hip" pose = Some (x, y) /\
    PrimFloat.is_nan y = true /\
    F64.in_unit y = false.
Proof.
  do 3 eexists. split; [vm_compute; reflexivity |].
  split; [reflexivity |]. split; reflexivity.
Qed.

(** C8 (amended). Every pose of the template moves (at any phase;
    [sideStep] with either direction the sequencer passes) has canonical
    joint names and coordinates in [0,1]; so has every pose the normalizer
    returns on moderate raw coordinates (finite, of magnitude at most 1e307);
    and so has every keyframe of the choreography the orchestrator writes,
    whichever tier produced it, when the poses the inference yields are
    moderate. *)
Theorem keyframes_in_unit_square :
  (pose_ok base_pose /\
   forall t : R,
     pose_ok (arms_up t) /\ pose_ok (side_step t 1) /\
     pose_ok (side_step t (-1)) /\ pose_ok (wave_arms t)) /\
  (forall (joints_3d : list Point3) (pose : Pose),
     moderate joints_3d ->
     project_smpl_to_2d joints_3d = Ok pose -> pose_ok pose) /\
  (forall (w : World) (choreo : Choreography),
     moderate_output w ->
     snd (generate w) = Ok choreo ->
     Forall (fun kf => pose_ok (joints kf)) (frames choreo)).
Proof.
  split; [| split].
  - split; [apply base_pose_ok |]. intros t.
    split; [apply arms_up_ok |].
    split; [apply side_step_ok; now left |].
    split; [apply side_step_ok; now right | apply wave_arms_ok].
  - intros joints_3d pose _ H.
    destruct (project_smpl_to_2d_total joints_3d) as [pose' [H' Hok]].
    rewrite H in H'. inversion H'. exact Hok.
  - intros w choreo _. rewrite generate_result.
    destruct (makedirs w) as [u0 |]; simpl; [| discriminate].
    destruct (snd (analyze_music w)) as [a |]; simpl; [| discriminate].
    destruct (write_analysis w) as [u1 |]; simpl; [| discriminate].
    rewrite try_edge_generation_result. unfold rbind at 1.
    assert (Htemplate : forall fs,
              generate_template_choreo (a_bpm a) (a_beat_times a) (a_duration a)
              = Ok fs -> Forall (fun kf => pose_ok (joints kf)) fs).
    { intros fs Hfs. destruct (Req_dec_T (a_bpm a) 0) as [E | N].
      - unfold generate_template_choreo in Hfs. rewrite E, py_div_zero in Hfs.
        discriminate.
      - rewrite generate_template_choreo_closed_form in Hfs by exact N.
        inversion Hfs. apply frames_from_ok. }
    assert (Hfinish : forall fs,
              Forall (fun kf => pose_ok (joints kf)) fs ->
              (_ <- write_choreo w ;;
               Ok (mkChoreography (output_basename w) (a_bpm a) (a_duration a) fs))
              = Ok choreo ->
              Forall (fun kf => pose_ok (joints kf)) (frames choreo)).
    { intros fs Hfs. destruct (write_choreo w); simpl; [| discriminate].
      intros H. inversion H. exact Hfs. }
    assert (Hfallback :
              (frames <- generate_template_choreo
                           (a_bpm a) (a_beat_times a) (a_duration a) ;;
               _ <- write_choreo w ;;
               Ok (mkChoreography (output_basename w) (a_bpm a) (a_duration a) frames))
              = Ok choreo ->
              Forall (fun kf => pose_ok (joints kf)) (frames choreo)).
    { destruct (generate_template_choreo (a_bpm a) (a_beat_times a) (a_duration a))
        as [fs |] eqn:E; simpl; [| discriminate].
      apply Hfinish. now apply Htemplate. }
    destruct (torch_import w); [| exact Hfallback].
    destruct (edge_find_spec w) as [[|] |]; try exact Hfallback.
    destruct (edge_import w); [| exact Hfallback].
    destruct (edge_model w); [| exact Hfallback].
    destruct (edge_generate w) as [output |]; [| exact Hfallback].
    destruct (project_frames_ok output [] (Forall_nil _)) as [fs [-> Hfs]].
    destruct fs as [| kf fs]; [exact Hfallback |].
    simpl. now apply Hfinish.
Qed.

(** ** The progress stream *)

Lemma beat_grid_defined (bpm duration : R) :
  bpm <> 0 -> exists grid, beat_grid bpm duration = Ok grid.
Proof.
  intros Hbpm. unfold beat_grid.
  rewrite (py_div_ok _ _ Hbpm). simpl.
  rewrite py_div_ok; [simpl; eauto |].
  unfold Rdiv. apply Rmult_integral_contrapositive_currified; [lra |].
  now apply Rinv_neq_0_compat.
Qed.

Lemma analyze_music_total (w : World) :
  exists a : AnalysisResult,
    snd (analyze_music w) = Ok a /\
    (fst (analyze_music w) = [] \/
     fst (analyze_music w) = [mkEvent "Analyzing music (fallback)" 0.15 None]).
Proof.
  assert (Hfallback : forall d : R, exists grid, beat_grid 120 d = Ok grid)
    by (intros d; apply beat_grid_defined; lra).
  unfold analyze_music, try_except, bind, lift, ret, emit_progress.
  destruct (librosa_analysis w) as [[[d b] [| bt bts]] |]; simpl.
  - destruct (beat_grid b d) as [grid |]; simpl; [eauto |].
    destruct (soundfile_duration w) as [d' |]; simpl.
    + destruct (Hfallback d') as [grid ->]. simpl. eauto.
    + destruct (Hfallback 180) as [grid ->]. simpl. eauto.
  - eauto.
  - destruct (soundfile_duration w) as [d' |]; simpl.
    + destruct (Hfallback d') as [grid ->]. simpl. eauto.
    + destruct (Hfallback 180) as [grid ->]. simpl. eauto.
Qed.

Lemma try_edge_generation_events (w : World) (bpm : R) (beat_times : list R) :
  exists n : nat,
    fst (try_edge_generation w bpm beat_times) = firstn n edge_stages /\
    (forall fs, snd (try_edge_generation w bpm beat_times) = Ok (Some fs) ->
                n = 3%nat).
Proof.
  unfold try_edge_generation, try_except, bind, lift, ret, emit_progress.
  destruct (torch_import w);
    [| exists 0%nat; split; [reflexivity | discriminate]].
  destruct (edge_find_spec w) as [[|] |]; simpl;
    try (exists 0%nat; split; [reflexivity | discriminate]).
  destruct (edge_import w); simpl;
    [| exists 1%nat; split; [reflexivity | discriminate]].
  destruct (edge_model w); simpl;
    [| exists 1%nat; split; [reflexivity | discriminate]].
  destruct (edge_generate w) as [output |]; simpl;
    [| exists 2%nat; split; [reflexivity | discriminate]].
  exists 3%nat. split; [| reflexivity].
  destruct (project_frames output []) as [[| kf fs] |]; reflexivity.
Qed.

(** The lines [generate] prints, by cases on its stages. *)
Lemma generate_events (w : World) :
  fst (generate w) =
  match makedirs w with
  | Raise _ => []
  | Ok _ =>
      mkEvent "Analyzing music" 0.1 None ::
      fst (analyze_music w) ++
      match snd (analyze_music w) with
      | Raise _ => []
      | Ok a =>
          match write_analysis w with
          | Raise _ => []
          | Ok _ =>
              mkEvent "Generating moves" 0.3 None ::
              fst (try_edge_generation w (a_bpm a) (a_beat_times a)) ++
              match snd (try_edge_generation w (a_bpm a) (a_beat_times a)) with
              | Raise _ => []
              | Ok (Some _) => saving_stages w
              | Ok None =>
                  mkEvent "Generating moves (template mode)" 0.4 None ::
                  match generate_template_choreo
                          (a_bpm a) (a_beat_times a) (a_duration a) with
                  | Raise _ => []
                  | Ok _ => saving_stages w
                  end
              end
          end
      end
  end.
Proof.
  unfold generate, saving_stages, bind, lift, ret, emit_progress.
  destruct (makedirs w) as [u0 |]; [| reflexivity]. simpl.
  destruct (analyze_music w) as [l1 [a |]]; simpl; [| rewrite ?app_nil_r; reflexivity].
  destruct (write_analysis w) as [u1 |]; simpl; [| rewrite ?app_nil_r; reflexivity].
  destruct (try_edge_generation w (a_bpm a) (a_beat_times a))
    as [l2 [[fs |] |]]; simpl.
  - destruct (write_choreo w); reflexivity.
  - destruct (generate_template_choreo (a_bpm a) (a_beat_times a) (a_duration a));
      simpl; [| rewrite ?app_nil_r; reflexivity].
    destruct (write_choreo w); reflexivity.
  - rewrite ?app_nil_r; reflexivity.
Qed.

Lemma ends_with_cons {A : Type} (a x : A) (l : list A) :
  (exists evs, l = evs ++ [x]) -> exists evs, a :: l = evs ++ [x].
Proof. intros [evs ->]. now exists (a :: evs). Qed.

Lemma ends_with_app {A : Type} (x : A) (l0 l : list A) :
  (exists evs, l = evs ++ [x]) -> exists evs, l0 ++ l = evs ++ [x].
Proof. intros [evs ->]. exists (l0 ++ evs). now rewrite app_assoc. Qed.

Ltac progress_check := simpl; repeat split; lra.

(** A run of [generate] that returns has printed "Done" last. *)
Lemma generate_done_last (w : World) (choreo : Choreography) :
  snd (generate w) = Ok choreo ->
  exists evs, fst (generate w) = evs ++ [mkEvent "Done" 1.0 None].
Proof.
  rewrite generate_result, generate_events.
  assert (Hsave : forall fs,
            (_ <- write_choreo w ;; Ok fs) = Ok choreo ->
            exists evs, saving_stages w = evs ++ [mkEvent "Done" 1.0 None]).
  { intros fs. unfold saving_stages.
    destruct (write_choreo w); simpl; [| discriminate].
    intros _. now exists [mkEvent "Saving choreography" 0.9 None]. }
  destruct (makedirs w) as [u0 |]; simpl; [| discriminate].
  destruct (snd (analyze_music w)) as [a |]; simpl; [| discriminate].
  destruct (write_analysis w) as [u1 |]; simpl; [| discriminate].
  destruct (snd (try_edge_generation w (a_bpm a) (a_beat_times a)))
    as [[fs |] |]; simpl; [| | discriminate].
  - intros H. apply ends_with_cons, ends_with_app, ends_with_cons, ends_with_app.
    eapply Hsave. exact H.
  - destruct (generate_template_choreo (a_bpm a) (a_beat_times a) (a_duration a))
      as [fs |]; simpl; [| discriminate].
    intros H.
    apply ends_with_cons, ends_with_app, ends_with_cons, ends_with_app,
      ends_with_cons.
    eapply Hsave. exact H.
Qed.

(** When the ML tier is regular, the lines of [generate] never go down. *)
Lemma generate_progress_nondecreasing (w : World) :
  ml_tier_regular w -> nondecreasing (map progress (fst (generate w))).
Proof.
  intros Hreg. rewrite generate_events.
  destruct (makedirs w) as [u0 |]; [| exact I].
  destruct (analyze_music_total w) as [a [Ha Hl1]]. rewrite Ha.
  destruct (write_analysis w) as [u1 |];
    [| destruct Hl1 as [-> | ->]; progress_check].
  specialize (Hreg (a_bpm a) (a_beat_times a)).
  destruct (try_edge_generation_events w (a_bpm a) (a_beat_times a))
    as [n [Hl2 Hn]].
  rewrite Hl2 in *. unfold saving_stages.
  destruct (snd (try_edge_generation w (a_bpm a) (a_beat_times a)))
    as [[fs |] |].
  - rewrite (Hn fs eq_refl).
    destruct Hl1 as [-> | ->]; destruct (write_choreo w); progress_check.
  - specialize (Hreg eq_refl).
    destruct n as [| [| n]].
    + destruct Hl1 as [-> | ->];
        destruct (generate_template_choreo
                    (a_bpm a) (a_beat_times a) (a_duration a));
        try destruct (write_choreo w); progress_check.
    + destruct Hl1 as [-> | ->];
        destruct (generate_template_choreo
                    (a_bpm a) (a_beat_times a) (a_duration a));
        try destruct (write_choreo w); progress_check.
    + exfalso. simpl in Hreg.
      inversion Hreg as [| ? ? _ Htail]; subst.
      inversion Htail as [| ? ? Hhalf _]; subst.
      simpl in Hhalf. lra.
  - destruct n as [| [| [| n]]]; simpl; try rewrite firstn_nil;
      destruct Hl1 as [-> | ->]; progress_check.
Qed.

(** The script once the arguments are parsed and the input file exists. *)
Lemma main_runs_generate (w : World) :
  parse_args w = None -> mp3_is_file w = true ->
  main w =
  match generate w with
  | (log, Ok choreo) => mkRun log 0 (Some choreo)
  | (log, Raise e) =>
      mkRun (log ++ [mkEvent "Error" 0 (Some (error_text w e))]) 1 None
  end.
Proof. intros Hp Hf. unfold main. now rewrite Hp, Hf. Qed.

Ltac trace_run w :=
  rewrite (main_runs_generate w eq_refl eq_refl);
  let log := fresh "log" in
  let r := fresh "r" in
  let E := fresh "E" in
  let Hlog := fresh "Hlog" in
  let Hres := fresh "Hres" in
  destruct (generate w) as [log r] eqn:E;
  assert (Hlog : log = fst (generate w)) by (now rewrite E);
  assert (Hres : r = snd (generate w)) by (now rewrite E);
  rewrite generate_events in Hlog; rewrite generate_result in Hres;
  simpl in Hlog, Hres;
  rewrite generate_template_choreo_closed_form in Hlog, Hres by lra;
  simpl in Hlog, Hres; subst; simpl.

(** A run that cannot write [choreo.json] ends in Error, with the progress
    values 0.1, 0.3, 0.4, 0.9 and the 0 of the Error line. *)
Example full_disk_run :
  exit_status (main full_disk_world) = 1%Z /\
  map progress (events (main full_disk_world)) = [0.1; 0.3; 0.4; 0.9; 0].
Proof.
  trace_run full_disk_world. split; reflexivity.
Qed.

(** Where the progress stream is as the specification describes it: on a
    run that reaches [generate], the last line is "Done" with 1.0 when the
    script exits with 0 and "Error" with 0 otherwise; and when the ML tier
    returns frames or gives up before it starts inference, the progress
    values of the lines, a terminal Error line set aside, never go down. *)
Lemma progress_contract (w : World) :
  parse_args w = None ->
  (exit_status (main w) = 0%Z ->
     exists evs, events (main w) = evs ++ [mkEvent "Done" 1.0 None]) /\
  (exit_status (main w) <> 0%Z ->
     exists evs msg,
       events (main w) = evs ++ [mkEvent "Error" 0 (Some msg)] /\
       (ml_tier_regular w -> nondecreasing (map progress evs))) /\
  (exit_status (main w) = 0%Z -> ml_tier_regular w ->
     nondecreasing (map progress (events (main w)))).
Proof.
  intros Hp.
  pose proof (generate_done_last w) as Hdone.
  pose proof (generate_progress_nondecreasing w) as Hmono.
  unfold main. rewrite Hp. destruct (mp3_is_file w); simpl.
  - destruct (generate w) as [log [choreo | e]]; simpl in *.
    + split; [intros _; now apply (Hdone choreo) |].
      split; [intros H; now elim H | intros _; exact Hmono].
    + split; [discriminate |].
      split; [| discriminate].
      intros _. exists log, (error_text w e). now split.
  - split; [discriminate |]. split; [| discriminate].
    intros _. exists [], (String.append "File not found: " (mp3_path w)).
    now split.
Qed.

(** Without EDGE the ML tier prints nothing, so it is regular; the run of
    [plain_world] prints 0.1, 0.3, 0.4, 0.9, 1.0 and exits with 0. *)
Lemma no_edge_regular (w : World) :
  edge_find_spec w = Ok false -> ml_tier_regular w.
Proof.
  intros H bpm beat_times _.
  unfold try_edge_generation, try_except, bind, lift, ret, emit_progress.
  rewrite H. destruct (torch_import w); constructor.
Qed.

Example plain_run :
  ml_tier_regular plain_world /\
  exit_status (main plain_world) = 0%Z /\
  map progress (events (main plain_world)) = [0.1; 0.3; 0.4; 0.9; 1.0].
Proof.
  split; [now apply no_edge_regular |].
  trace_run plain_world. split; reflexivity.
Qed.

(** C9 (code bug). With torch and EDGE installed and the inference raising,
    the ML tier has printed "Loading EDGE model" (0.35) and "Running EDGE
    inference" (0.5) when it returns None; [generate] then prints
    "Generating moves (template mode)" with 0.4.  The run succeeds (status
    0, last line "Done" with 1.0) and its progress values are 0.1, 0.3,
    0.35, 0.5, 0.4, 0.9, 1.0: they go down from 0.5 to 0.4. *)
Theorem edge_fallback_progress_regresses :
  exit_status (main failing_inference_world) = 0%Z /\
  map (fun e => (stage e, progress e)) (events (main failing_inference_world)) =
    [ ("Analyzing music", 0.1);
      ("Generating moves", 0.3);
      ("Loading EDGE model", 0.35);
      ("Running EDGE inference", 0.5);
      ("Generating moves (template mode)", 0.4);
      ("Saving choreography", 0.9);
      ("Done", 1.0) ] /\
  ~ nondecreasing (map progress (events (main failing_inference_world))).
Proof.
  trace_run failing_inference_world.
  split; [reflexivity |]. split; [reflexivity |].
  intros [_ [_ [_ [H _]]]]. lra.
Qed.

(** ** The uniform beat grid *)

(** [range(int(x))] holds [i] exactly when [i + 1 <= x]. *)
Lemma range_int_count (x : R) (i : nat) :
  In i (py_range (py_int x)) <-> INR (S i) <= x.
Proof.
  unfold py_range. rewrite in_seq. rewrite INR_IZR_INZ.
  unfold py_int. destruct (Rle_dec 0 x) as [Hx | Hx].
  - destruct (base_Int_part x) as [Hlo Hhi].
    assert (Hz : (0 <= Int_part x)%Z).
    { assert (IZR (-1) < IZR (Int_part x)) by (simpl; lra).
      apply lt_IZR in H. lia. }
    split.
    + intros [_ Hi].
      assert (Hle : (Z.of_nat (S i) <= Int_part x)%Z) by lia.
      apply IZR_le in Hle. lra.
    + intros Hi.
      assert (Hlt : IZR (Z.of_nat (S i)) < IZR (Int_part x + 1))
        by (rewrite plus_IZR; lra).
      apply lt_IZR in Hlt. lia.
  - destruct (base_Int_part (- x)) as [Hlo Hhi].
    assert (Hz : (0 <= Int_part (- x))%Z).
    { assert (IZR (-1) < IZR (Int_part (- x))) by (simpl; lra).
      apply lt_IZR in H. lia. }
    split.
    + intros [_ Hi]. lia.
    + intros Hi. exfalso.
      assert (Hpos : (0 < Z.of_nat (S i))%Z) by lia.
      apply IZR_lt in Hpos. lra.
Qed.

Lemma beat_grid_members (bpm duration : R) :
  0 < bpm ->
  exists grid : list R,
    beat_grid bpm duration = Ok grid /\
    forall t : R,
      In t grid <->
      exists i : nat,
        t = INR i * (60 / bpm) /\ INR (S i) * (60 / bpm) <= duration.
Proof.
  intros Hbpm.
  assert (Hint : 0 < 60 / bpm) by (apply Rdiv_lt_0_compat; lra).
  unfold beat_grid. rewrite py_div_ok by lra. simpl.
  rewrite py_div_ok by lra. simpl.
  eexists. split; [reflexivity |].
  intros t. rewrite in_map_iff.
  assert (Hcount : forall i : nat,
            INR (S i) <= duration / (60 / bpm) <->
            INR (S i) * (60 / bpm) <= duration).
  { intros i. split; intros H.
    - apply (Rmult_le_compat_r (60 / bpm)) in H; [| lra].
      unfold Rdiv at 2 in H. rewrite Rmult_assoc, Rinv_l in H; lra.
    - apply (Rmult_le_reg_r (60 / bpm)); [exact Hint |].
      unfold Rdiv at 2. rewrite Rmult_assoc, Rinv_l; lra. }
  split.
  - intros [i [Ht Hin]]. exists i. split; [now symmetry |].
    apply Hcount. now apply range_int_count.
  - intros [i [Ht Hle]]. exists i. split; [now symmetry |].
    apply range_int_count. now apply Hcount.
Qed.

(** *** The grid in binary64 *)






(** Where rounding shows: at 87 bpm twenty seconds hold 29 beat intervals
    exactly, but 60/87 is rounded up, the quotient is just below 29, and the
    grid has 28 beats. *)
Example beat_grid_rounded_down :
  exists (interval q : float) (grid : list float),
    F64.py_div 60 87 = Ok interval /\
    F64.py_div 20 interval = Ok q /\
    PrimFloat.ltb q 29 = true /\
    F64.py_int q = Ok 28%Z /\
    F64.beat_grid 87 20 = Ok grid /\
    List.length grid = 28%nat.
Proof.
  do 3 eexists. repeat split; vm_compute; reflexivity.
Qed.

(** * Further properties *)

(** ** The normalizer as a bounding-box map *)

Lemma fold_Rmax_in (t : list R) (x : R) : In (fold_left Rmax t x) (x :: t).
Proof.
  revert x. induction t as [| a t IH]; intros x; simpl.
  - now left.
  - destruct (IH (Rmax x a)) as [E | H].
    + rewrite <- E. unfold Rmax. destruct (Rle_dec x a); auto.
    + right. now right.
Qed.

(** With a mapped joint present, the output is the image of the raw points
    under the map of their bounding box, whose four sides are attained. *)
Lemma project_bounding_box (joints_3d : list Point3) :
  (exists name x y, raw_point joints_3d name x y) ->
  exists min_x max_x min_y max_y : R,
    project_smpl_to_2d joints_3d =
      Ok (map (normalized_point min_x (py_or (max_x - min_x) 1)
                                min_y (py_or (max_y - min_y) 1))
              (mapped_points SMPL_TO_JOINT joints_3d)) /\
    (forall n x y, raw_point joints_3d n x y ->
       min_x <= x <= max_x /\ min_y <= y <= max_y) /\
    (exists n y, raw_point joints_3d n min_x y) /\
    (exists n y, raw_point joints_3d n max_x y) /\
    (exists n x, raw_point joints_3d n x min_y) /\
    (exists n x, raw_point joints_3d n x max_y).
Proof.
  intros [name [x [y Hr]]].
  pose proof (project_smpl_to_2d_closed_form joints_3d) as Hcf.
  pose proof (mapped_points_raw joints_3d) as Hraw.
  cbv zeta in Hcf. apply Hraw in Hr.
  destruct (mapped_points SMPL_TO_JOINT joints_3d) as [| [n0 [x0 y0]] rest] eqn:E;
    [destruct Hr |].
  set (vis := (n0, (x0, y0)) :: rest) in *.
  exists (fold_left Rmin (map fst (Dict.values rest)) x0),
         (fold_left Rmax (map fst (Dict.values rest)) x0),
         (fold_left Rmin (map snd (Dict.values rest)) y0),
         (fold_left Rmax (map snd (Dict.values rest)) y0).
  split; [exact Hcf |]. split.
  - intros n x' y' H. apply Hraw in H. apply pose_xs_in in H.
    destruct H as [Hx Hy].
    repeat split; first [ now apply fold_Rmin_le | now apply fold_Rmax_ge ].
  - split; [| split; [| split]].
    + destruct (pose_xs_from vis (fold_left Rmin (map fst (Dict.values rest)) x0))
        as [n [y' H]]; [apply fold_Rmin_in |].
      exists n, y'. now apply Hraw.
    + destruct (pose_xs_from vis (fold_left Rmax (map fst (Dict.values rest)) x0))
        as [n [y' H]]; [apply fold_Rmax_in |].
      exists n, y'. now apply Hraw.
    + destruct (pose_ys_from vis (fold_left Rmin (map snd (Dict.values rest)) y0))
        as [n [x' H]]; [apply fold_Rmin_in |].
      exists n, x'. now apply Hraw.
    + destruct (pose_ys_from vis (fold_left Rmax (map snd (Dict.values rest)) y0))
        as [n [x' H]]; [apply fold_Rmax_in |].
      exists n, x'. now apply Hraw.
Qed.

Lemma normalized_lookup (joints_3d : list Point3) (a b c d : R)
    (name : string) (x y : R) :
  raw_point joints_3d name x y ->
  Dict.get name (map (normalized_point a b c d)
                     (mapped_points SMPL_TO_JOINT joints_3d)) =
  Some ((x - a) / b, 1 - (y - c) / d).
Proof.
  intros Hr. apply mapped_points_raw in Hr.
  apply Dict_get_in.
  - rewrite normalized_keys. apply mapped_points_NoDup, SMPL_names_NoDup.
  - apply in_map_iff. exists (name, (x, y)). split; [reflexivity | exact Hr].
Qed.

Lemma unit_quotient (a : R) : a <> 0 -> a / a = 1.
Proof. intros H. unfold Rdiv. now apply Rinv_r. Qed.

Lemma raw_point_sample :
  raw_point [(9, 9, 9); (1, 2, 0); (3, 6, 0)] "right_hip" 3 6.
Proof.
  exists 2%nat, 0. split; [| reflexivity].
  simpl. repeat (first [left; reflexivity | right]).
Qed.

(** X1. The far sides of the bounding box, on moderate raw coordinates
    (finite, of magnitude at most 1e307, so that no extent overflows): a
    joint of maximal raw X gets output X = 1 when the X extent is not zero; a
    joint of minimal raw Y gets output Y = 1 (the axis is flipped); a joint
    of maximal raw Y gets output Y = 0 when the Y extent is not zero. *)
Theorem normalizer_far_sides (joints_3d : list Point3) (name : string) (x y : R) :
  moderate joints_3d ->
  raw_point joints_3d name x y ->
  exists (pose : Pose) (nx ny : R),
    project_smpl_to_2d joints_3d = Ok pose /\
    Dict.get name pose = Some (nx, ny) /\
    ((forall n' x' y', raw_point joints_3d n' x' y' -> x' <= x) ->
     (exists n' x' y', raw_point joints_3d n' x' y' /\ x' <> x) -> nx = 1) /\
    ((forall n' x' y', raw_point joints_3d n' x' y' -> y <= y') -> ny = 1) /\
    ((forall n' x' y', raw_point joints_3d n' x' y' -> y' <= y) ->
     (exists n' x' y', raw_point joints_3d n' x' y' /\ y' <> y) -> ny = 0).
Proof.
  intros _ Hr.
  destruct (project_bounding_box joints_3d)
    as [min_x [max_x [min_y [max_y [Hp [Hbox [Hlx [Hhx [Hly Hhy]]]]]]]]];
    [now exists name, x, y |].
  eexists. do 2 eexists. split; [exact Hp |].
  split; [exact (normalized_lookup _ _ _ _ _ _ _ _ Hr) |].
  destruct (Hbox _ _ _ Hr) as [[Hx1 Hx2] [Hy1 Hy2]].
  split; [| split].
  - intros Hmax [n' [x' [y' [Hr' Hne]]]].
    destruct Hhx as [n1 [y1 H1]]. apply Hmax in H1.
    destruct (Hbox _ _ _ Hr') as [[Hlo _] _]. pose proof (Hmax _ _ _ Hr').
    assert (Hext : max_x - min_x <> 0) by lra.
    unfold py_or. destruct (Req_dec_T (max_x - min_x) 0); [contradiction |].
    replace (x - min_x) with (max_x - min_x) by lra. now apply unit_quotient.
  - intros Hmin. destruct Hly as [n1 [x1 H1]]. apply Hmin in H1.
    replace (y - min_y) with 0 by lra. unfold Rdiv. ring.
  - intros Hmax [n' [x' [y' [Hr' Hne]]]].
    destruct Hhy as [n1 [x1 H1]]. apply Hmax in H1.
    destruct (Hbox _ _ _ Hr') as [_ [Hlo _]]. pose proof (Hmax _ _ _ Hr').
    assert (Hext : max_y - min_y <> 0) by lra.
    unfold py_or. destruct (Req_dec_T (max_y - min_y) 0); [contradiction |].
    replace (y - min_y) with (max_y - min_y) by lra.
    rewrite unit_quotient by exact Hext. ring.
Qed.

Lemma normalizer_far_sides_witness :
  exists (pose : Pose) (nx ny : R),
    project_smpl_to_2d [(9, 9, 9); (1, 2, 0); (3, 6, 0)] = Ok pose /\
    Dict.get "right_hip" pose = Some (nx, ny) /\
    ((forall n' x' y',
        raw_point [(9, 9, 9); (1, 2, 0); (3, 6, 0)] n' x' y' -> x' <= 3) ->
     (exists n' x' y',
        raw_point [(9, 9, 9); (1, 2, 0); (3, 6, 0)] n' x' y' /\ x' <> 3) ->
     nx = 1) /\
    ((forall n' x' y',
        raw_point [(9, 9, 9); (1, 2, 0); (3, 6, 0)] n' x' y' -> 6 <= y') ->
     ny = 1) /\
    ((forall n' x' y',
        raw_point [(9, 9, 9); (1, 2, 0); (3, 6, 0)] n' x' y' -> y' <= 6) ->
     (exists n' x' y',
        raw_point [(9, 9, 9); (1, 2, 0); (3, 6, 0)] n' x' y' /\ y' <> 6) ->
     ny = 0).
Proof.
  apply (normalizer_far_sides [(9, 9, 9); (1, 2, 0); (3, 6, 0)] "right_hip" 3 6).
  - exact moderate_sample.
  - exact raw_point_sample.
Defined.

Lemma mapped_points_agree (table : list (nat * string))
    (joints_a joints_b : list Point3) :
  (forall idx name, In (idx, name) table ->
     option_map row_xy (nth_error joints_a idx) =
     option_map row_xy (nth_error joints_b idx)) ->
  mapped_points table joints_a = mapped_points table joints_b.
Proof.
  induction table as [| [idx name] table IH]; intros H; simpl.
  - reflexivity.
  - rewrite IH by (intros i n Hin; apply (H i n); now right).
    specialize (H idx name (or_introl eq_refl)).
    destruct (nth_error joints_a idx) as [[[xa ya] za] |],
             (nth_error joints_b idx) as [[[xb yb] zb] |];
      simpl in H; try discriminate; [| reflexivity].
    unfold row_xy in H. simpl in H. inversion H. reflexivity.
Qed.

Lemma project_of_mapped (joints_a joints_b : list Point3) :
  mapped_points SMPL_TO_JOINT joints_a = mapped_points SMPL_TO_JOINT joints_b ->
  project_smpl_to_2d joints_a = project_smpl_to_2d joints_b.
Proof.
  intros H.
  pose proof (project_smpl_to_2d_closed_form joints_a) as Ha.
  pose proof (project_smpl_to_2d_closed_form joints_b) as Hb.
  cbv zeta in Ha, Hb. rewrite H in Ha.
  destruct (mapped_points SMPL_TO_JOINT joints_b) as [| [n0 [x0 y0]] rest];
    congruence.
Qed.

(** X2. The normalizer reads only the first two coordinates of the rows at
    the indices of the table: two arrays that agree there (in particular
    arrays that differ in depth, in the unmapped rows 0, 3, 6, 9-14, or past
    row 23) give the same pose. *)
Theorem normalizer_reads_mapped_xy (joints_a joints_b : list Point3) :
  (forall idx name, In (idx, name) SMPL_TO_JOINT ->
     option_map row_xy (nth_error joints_a idx) =
     option_map row_xy (nth_error joints_b idx)) ->
  project_smpl_to_2d joints_a = project_smpl_to_2d joints_b.
Proof.
  intros H. apply project_of_mapped. now apply mapped_points_agree.
Qed.

Lemma normalizer_reads_mapped_xy_witness :
  project_smpl_to_2d [(9, 9, 9); (1, 2, 0); (3, 6, 0)] =
  project_smpl_to_2d [(0, 0, 0); (1, 2, 5); (3, 6, 7)].
Proof.
  apply normalizer_reads_mapped_xy.
  intros idx name H. simpl in H.
  repeat (destruct H as [H | H]; [inversion H; reflexivity |]).
  contradiction.
Defined.

(** ** Which joints the normalizer returns *)

Lemma mapped_points_keys_inside (table : list (nat * string))
    (joints_3d : list Point3) :
  Dict.keys (mapped_points table joints_3d) =
  map snd (filter (fun e => (fst e <? List.length joints_3d)%nat) table).
Proof.
  induction table as [| [idx name] table IH]; simpl.
  - reflexivity.
  - rewrite Dict_keys_app, IH.
    destruct (Nat.ltb_spec idx (List.length joints_3d)) as [Hlt | Hge].
    + destruct (nth_error joints_3d idx) as [[[x y] z] |] eqn:E.
      * reflexivity.
      * apply nth_error_None in E. lia.
    + apply nth_error_None in Hge. rewrite Hge. reflexivity.
Qed.

Lemma project_keys (joints_3d : list Point3) :
  exists pose : Pose,
    project_smpl_to_2d joints_3d = Ok pose /\
    Dict.keys pose = map snd (entries_inside (List.length joints_3d)).
Proof.
  pose proof (project_smpl_to_2d_closed_form joints_3d) as Hcf.
  pose proof (mapped_points_keys_inside SMPL_TO_JOINT joints_3d) as Hk.
  cbv zeta in Hcf. fold (entries_inside (List.length joints_3d)) in Hk.
  destruct (mapped_points SMPL_TO_JOINT joints_3d) as [| [n0 [x0 y0]] rest].
  - exists []. now split.
  - eexists. split; [exact Hcf |]. now rewrite normalized_keys.
Qed.

Lemma entries_inside_empty (n : nat) :
  entries_inside n = [] <-> (n <= 1)%nat.
Proof.
  split.
  - intros H. destruct (Nat.le_gt_cases n 1) as [Hle | Hgt]; [exact Hle |].
    exfalso.
    assert (Hin : In (1%nat, "left_hip") (entries_inside n)).
    { unfold entries_inside. apply filter_In. split.
      - simpl. repeat (first [left; reflexivity | right]).
      - simpl. apply Nat.ltb_lt. lia. }
    rewrite H in Hin. destruct Hin.
  - intros H. destruct n as [| [| n]]; [reflexivity | reflexivity | lia].
Qed.

Lemma project_empty_iff (joints_3d : list Point3) (pose : Pose) :
  project_smpl_to_2d joints_3d = Ok pose ->
  (pose = [] <-> (List.length joints_3d <= 1)%nat).
Proof.
  intros H. destruct (project_keys joints_3d) as [pose' [H' Hk]].
  rewrite H in H'. inversion H'; subst pose'.
  rewrite <- entries_inside_empty. split.
  - intros ->. simpl in Hk.
    destruct (entries_inside (List.length joints_3d)); [reflexivity | discriminate].
  - intros E. rewrite E in Hk. destruct pose; [reflexivity | discriminate].
Qed.

(** X4. The pose of the normalizer holds exactly the joints of the table
    whose index is inside the array, in the order of the table.  It is empty
    exactly for arrays of at most one row, and it never holds an eye. *)
Theorem normalizer_joints (joints_3d : list Point3) :
  exists pose : Pose,
    project_smpl_to_2d joints_3d = Ok pose /\
    Dict.keys pose =
      map snd (filter (fun e => (fst e <? List.length joints_3d)%nat)
                      SMPL_TO_JOINT) /\
    (pose = [] <-> (List.length joints_3d <= 1)%nat) /\
    ~ In "left_eye" (Dict.keys pose) /\
    ~ In "right_eye" (Dict.keys pose).
Proof.
  destruct (project_keys joints_3d) as [pose [Hp Hk]].
  exists pose. split; [exact Hp |]. split; [exact Hk |].
  split; [now apply project_empty_iff |].
  assert (Hno : forall eye, (forall i, ~ In (i, eye) SMPL_TO_JOINT) ->
                            ~ In eye (Dict.keys pose)).
  { intros eye Hnot Hin. rewrite Hk in Hin. apply in_map_iff in Hin.
    destruct Hin as [[i n] [E Hin]]. simpl in E. subst n.
    apply filter_In in Hin. destruct Hin as [Hin _]. now apply (Hnot i). }
  split; apply Hno; intros i H; simpl in H;
    repeat (destruct H as [H | H]; [discriminate H |]); exact H.
Qed.

(** ** More on the procedural sequencer *)

Lemma beat_pose_keys (i : nat) : Dict.keys (beat_pose i) = Dict.keys base_pose.
Proof.
  unfold beat_pose. destruct (beat_move i); reflexivity.
Qed.

(** X6. Every frame of the sequencer holds the same thirteen joints, in the
    same order: the nose and the shoulders, elbows, wrists, hips, knees and
    ankles; no eye and no ear. *)
Theorem sequencer_joint_set (bpm : R) (beat_times : list R) (duration : R)
    (frames : list Keyframe) :
  generate_template_choreo bpm beat_times duration = Ok frames ->
  Forall (fun kf => Dict.keys (joints kf) =
                    [ "nose"; "left_shoulder"; "right_shoulder";
                      "left_elbow"; "right_elbow"; "left_wrist"; "right_wrist";
                      "left_hip"; "right_hip"; "left_knee"; "right_knee";
                      "left_ankle"; "right_ankle" ]) frames.
Proof.
  intros Hgen.
  destruct (Req_dec_T bpm 0) as [-> | Hbpm].
  - unfold generate_template_choreo in Hgen. rewrite py_div_zero in Hgen.
    discriminate.
  - rewrite generate_template_choreo_closed_form in Hgen by exact Hbpm.
    inversion Hgen; subst frames. clear Hgen.
    generalize 0%nat.
    induction (retained_beats duration beat_times) as [| b rest IH];
      intros i; simpl; constructor.
    + simpl. now rewrite beat_pose_keys.
    + apply IH.
Qed.

Lemma sample_sequence :
  generate_template_choreo 120 [0; 1; 2; 3; 4] 9 =
  Ok (frames_from 0 [0; 1; 2; 3; 4]).
Proof.
  rewrite generate_template_choreo_closed_form by lra.
  rewrite retained_all; [reflexivity | all_beats_within].
Qed.

Lemma sequencer_joint_set_witness :
  Forall (fun kf => Dict.keys (joints kf) =
                    [ "nose"; "left_shoulder"; "right_shoulder";
                      "left_elbow"; "right_elbow"; "left_wrist"; "right_wrist";
                      "left_hip"; "right_hip"; "left_knee"; "right_knee";
                      "left_ankle"; "right_ankle" ])
         (frames_from 0 [0; 1; 2; 3; 4]).
Proof.
  apply (sequencer_joint_set 120 [0; 1; 2; 3; 4] 9).
  exact sample_sequence.
Defined.

Lemma odd_quarter (n : nat) :
  (n mod 4 = 1 \/ n mod 4 = 3)%nat -> Nat.even n = false.
Proof.
  intros H. rewrite <- even_mod2. apply Nat.eqb_neq.
  pose proof (Nat.Div0.mod_mul_r n 2 2) as Hm. change (2 * 2)%nat with 4%nat in Hm.
  pose proof (Nat.mod_upper_bound n 2).
  pose proof (Nat.mod_upper_bound (n / 2) 2).
  lia.
Qed.

(** X7. The sequencer never steps to the right: [side_step] sits at the odd
    positions of the move cycle, where [i div 4] is odd, so every frame made
    by [side_step] is made with direction -1. *)
Theorem side_step_direction (bpm : R) (beat_times : list R) (duration : R)
    (frames : list Keyframe) (i : nat) (kf : Keyframe) :
  generate_template_choreo bpm beat_times duration = Ok frames ->
  nth_error frames i = Some kf ->
  nth_error move_sequence ((i / move_beats) mod List.length move_sequence) =
    Some SideStep ->
  joints kf = side_step (INR (i mod move_beats) / INR move_beats) (-1).
Proof.
  intros Hgen Hnth Hmove.
  destruct (Req_dec_T bpm 0) as [-> | Hbpm].
  - unfold generate_template_choreo in Hgen. rewrite py_div_zero in Hgen.
    discriminate.
  - rewrite generate_template_choreo_closed_form in Hgen by exact Hbpm.
    inversion Hgen; subst frames.
    apply frames_from_nth in Hnth. destruct Hnth as [Hj _].
    change (0 + i)%nat with i in Hj. rewrite Hj, move_beats_INR.
    change (List.length move_sequence) with 4%nat in Hmove.
    change move_beats with 4%nat in *.
    unfold beat_pose, beat_move, beat_phase, beat_direction.
    assert (Hlt : ((i / 4) mod 4 < 4)%nat) by (apply Nat.mod_upper_bound; lia).
    assert (Hodd : Nat.even (i / 4) = false).
    { apply odd_quarter.
      destruct ((i / 4) mod 4)%nat as [| [| [| [| n]]]];
        simpl in Hmove; try discriminate; lia. }
    rewrite Hodd.
    destruct ((i / 4) mod 4)%nat as [| [| [| [| n]]]];
      simpl in Hmove; try discriminate; try reflexivity; lia.
Qed.

Lemma side_step_direction_witness :
  joints (mkKeyframe 4 (beat_pose 4)) =
  side_step (INR (4 mod move_beats) / INR move_beats) (-1).
Proof.
  apply (side_step_direction 120 [0; 1; 2; 3; 4] 9
                             (frames_from 0 [0; 1; 2; 3; 4]) 4).
  - exact sample_sequence.
  - reflexivity.
  - reflexivity.
Defined.

Lemma beat_pose_period (i : nat) : beat_pose (i + 16) = beat_pose i.
Proof.
  unfold beat_pose, beat_move, beat_phase, beat_direction.
  assert (Hd : ((i + 16) / 4 = i / 4 + 4)%nat)
    by (change 16%nat with (4 * 4)%nat; apply Nat.div_add; lia).
  assert (Hm : ((i + 16) mod 4 = i mod 4)%nat)
    by (change 16%nat with (4 * 4)%nat; apply Nat.Div0.mod_add).
  assert (Hq : ((i / 4 + 4) mod 4 = (i / 4) mod 4)%nat)
    by (apply (Nat.Div0.mod_add (i / 4) 1 4)).
  assert (He : Nat.even (i / 4 + 4) = Nat.even (i / 4)).
  { rewrite Nat.even_add. change (Nat.even 4) with true.
    destruct (Nat.even (i / 4)); reflexivity. }
  rewrite Hd, Hm, Hq, He. reflexivity.
Qed.

(** X8. The choreography of the sequencer repeats every sixteen beats: the
    frames at positions [i] and [i + 16] hold the same pose. *)
Theorem sequencer_period (bpm : R) (beat_times : list R) (duration : R)
    (frames : list Keyframe) (i : nat) (kf kf' : Keyframe) :
  generate_template_choreo bpm beat_times duration = Ok frames ->
  nth_error frames i = Some kf ->
  nth_error frames (i + 16) = Some kf' ->
  joints kf' = joints kf.
Proof.
  intros Hgen Hnth Hnth'.
  destruct (Req_dec_T bpm 0) as [-> | Hbpm].
  - unfold generate_template_choreo in Hgen. rewrite py_div_zero in Hgen.
    discriminate.
  - rewrite generate_template_choreo_closed_form in Hgen by exact Hbpm.
    inversion Hgen; subst frames.
    apply frames_from_nth in Hnth, Hnth'.
    destruct Hnth as [Hj _], Hnth' as [Hj' _].
    rewrite Hj, Hj'. simpl. apply beat_pose_period.
Qed.

Lemma sequencer_period_witness :
  joints (mkKeyframe 16 (beat_pose 16)) = joints (mkKeyframe 0 (beat_pose 0)).
Proof.
  apply (sequencer_period 120
           [0; 1; 2; 3; 4; 5; 6; 7; 8; 9; 10; 11; 12; 13; 14; 15; 16] 16
           (frames_from 0
              [0; 1; 2; 3; 4; 5; 6; 7; 8; 9; 10; 11; 12; 13; 14; 15; 16]) 0).
  - rewrite generate_template_choreo_closed_form by lra.
    rewrite retained_all; [reflexivity | all_beats_within].
  - reflexivity.
  - reflexivity.
Defined.

Lemma nondecreasing_tail (b : R) (rest : list R) :
  nondecreasing (b :: rest) ->
  nondecreasing rest /\ Forall (fun x => b <= x) rest.
Proof.
  revert b. induction rest as [| c rest IH]; intros b H.
  - split; constructor.
  - destruct H as [Hbc Hrest]. split; [exact Hrest |].
    destruct (IH c Hrest) as [_ Hall].
    constructor; [exact Hbc |].
    eapply Forall_impl; [| exact Hall]. intros x Hx. simpl in Hx. lra.
Qed.

Lemma retained_sorted (duration : R) (beat_times : list R) :
  nondecreasing beat_times ->
  retained_beats duration beat_times =
  filter (within_duration duration) beat_times.
Proof.
  induction beat_times as [| b rest IH]; intros Hs.
  - reflexivity.
  - destruct (nondecreasing_tail b rest Hs) as [Hrest Hall].
    cbn [retained_beats filter]. unfold within_duration at 1.
    destruct (Rgt_dec b duration) as [Hgt | Hle].
    + clear IH Hs Hrest. induction Hall as [| c rest Hc _ IH'].
      * reflexivity.
      * cbn [filter]. unfold within_duration at 1.
        destruct (Rgt_dec c duration); [exact IH' | lra].
    + f_equal. now apply IH.
Qed.

(** X9. On beat times in non-decreasing order the sequencer loses nothing
    it could keep: its frames are, one for one and in order, the beats that
    do not exceed the duration. *)
Theorem sequencer_keeps_beats_within (bpm : R) (beat_times : list R)
    (duration : R) :
  bpm <> 0 ->
  nondecreasing beat_times ->
  exists frames : list Keyframe,
    generate_template_choreo bpm beat_times duration = Ok frames /\
    map timestamp frames =
      filter (fun b => if Rgt_dec b duration then false else true) beat_times.
Proof.
  intros Hbpm Hs. eexists.
  split; [now apply generate_template_choreo_closed_form |].
  rewrite frames_from_timestamps. now apply retained_sorted.
Qed.

Lemma sequencer_keeps_beats_within_witness :
  exists frames : list Keyframe,
    generate_template_choreo 120 [0; 0.5; 1.0; 1.5; 2.0] 1.2 = Ok frames /\
    map timestamp frames =
      filter (fun b => if Rgt_dec b 1.2 then false else true)
             [0; 0.5; 1.0; 1.5; 2.0].
Proof.
  apply (sequencer_keeps_beats_within 120 [0; 0.5; 1.0; 1.5; 2.0] 1.2).
  - lra.
  - simpl. repeat split; lra.
Defined.

(** ** The synthesized grid and the sequencer together *)

Lemma beat_grid_explicit (bpm duration : R) :
  bpm <> 0 ->
  beat_grid bpm duration =
  Ok (map (fun i => INR i * (60 / bpm))
          (py_range (py_int (duration / (60 / bpm))))).
Proof.
  intros Hbpm. unfold beat_grid. rewrite (py_div_ok _ _ Hbpm). simpl.
  rewrite py_div_ok; [reflexivity |].
  unfold Rdiv. apply Rmult_integral_contrapositive_currified; [lra |].
  now apply Rinv_neq_0_compat.
Qed.

Lemma nth_error_map_seq {A : Type} (f : nat -> A) (n : nat) :
  forall (s i : nat) (a : A),
    nth_error (map f (seq s n)) i = Some a -> a = f (s + i)%nat.
Proof.
  induction n as [| n IH]; intros s i a H; simpl in H.
  - destruct i; discriminate.
  - destruct i as [| i]; simpl in H.
    + inversion H. now rewrite Nat.add_0_r.
    + apply IH in H. now rewrite Nat.add_succ_r.
Qed.

(** X10. For a positive tempo the synthesized grid and the sequencer fit:
    beat [i] of the grid is at [i * 60/bpm], the sequencer drops none of its
    beats (one frame per beat, at the beat's time), and the grid, hence the
    choreography, is empty exactly when the duration is shorter than one
    beat interval. *)
Theorem template_covers_grid (bpm duration : R) :
  0 < bpm ->
  exists (grid : list R) (frames : list Keyframe),
    beat_grid bpm duration = Ok grid /\
    generate_template_choreo bpm grid duration = Ok frames /\
    map timestamp frames = grid /\
    (forall i t, nth_error grid i = Some t -> t = INR i * (60 / bpm)) /\
    (grid = [] <-> duration < 60 / bpm).
Proof.
  intros Hbpm.
  assert (Hint : 0 < 60 / bpm) by (apply Rdiv_lt_0_compat; lra).
  destruct (beat_grid_members bpm duration Hbpm) as [grid [Hg Hmem]].
  assert (Hwithin : Forall (fun b => b <= duration) grid).
  { apply Forall_forall. intros t Ht. apply Hmem in Ht.
    destruct Ht as [i [-> Hle]]. rewrite S_INR in Hle.
    pose proof (pos_INR i). nra. }
  exists grid, (frames_from 0 grid).
  split; [exact Hg |]. split; [| split; [| split]].
  - rewrite generate_template_choreo_closed_form by lra.
    now rewrite retained_all.
  - apply frames_from_timestamps.
  - intros i t Hnth. rewrite beat_grid_explicit in Hg by lra.
    inversion Hg; subst grid. unfold py_range in Hnth.
    now apply nth_error_map_seq in Hnth.
  - split.
    + intros ->. apply Rnot_le_lt. intros Hle.
      assert (Hin : In (INR 0 * (60 / bpm)) []).
      { apply Hmem. exists 0%nat. split; [reflexivity |]. simpl. lra. }
      destruct Hin.
    + intros Hshort. destruct grid as [| t rest]; [reflexivity |].
      exfalso. assert (Hin : In t (t :: rest)) by now left.
      apply Hmem in Hin. destruct Hin as [i [_ Hle]].
      rewrite S_INR in Hle. pose proof (pos_INR i). nra.
Qed.

Lemma template_covers_grid_witness :
  exists (grid : list R) (frames : list Keyframe),
    beat_grid 120 1.2 = Ok grid /\
    generate_template_choreo 120 grid 1.2 = Ok frames /\
    map timestamp frames = grid /\
    (forall i t, nth_error grid i = Some t -> t = INR i * (60 / 120)) /\
    (grid = [] <-> 1.2 < 60 / 120).
Proof.
  apply (template_covers_grid 120 1.2). lra.
Defined.

(** ** The analysis block *)

Lemma beat_grid_zero_tempo (duration : R) :
  beat_grid 0 duration = Raise ZeroDivisionError.
Proof. unfold beat_grid. now rewrite py_div_zero. Qed.

(** X11. The analysis block never fails.  Detected beats are passed on with
    librosa's tempo and duration, silently; if no beat was detected and the
    tempo is not zero, the grid is built for librosa's tempo and duration.
    If librosa fails, or detects no beat and reports a zero tempo, the
    fallback line is printed and the tempo is 120 with the duration of the
    metadata probe, or 180 when the probe fails too. *)
Theorem analysis_always_available (w : World) :
  exists a : AnalysisResult,
    snd (analyze_music w) = Ok a /\
    (forall d b bt bts,
       librosa_analysis w = Ok (d, b, bt :: bts) ->
       a = mkAnalysis b d (bt :: bts) /\ fst (analyze_music w) = []) /\
    (forall d b,
       librosa_analysis w = Ok (d, b, []) -> b <> 0 ->
       a_bpm a = b /\ a_duration a = d /\
       beat_grid b d = Ok (a_beat_times a) /\ fst (analyze_music w) = []) /\
    ((exists e, librosa_analysis w = Raise e) \/
     (exists d, librosa_analysis w = Ok (d, 0, [])) ->
     a_bpm a = 120 /\
     a_duration a = match soundfile_duration w with
                    | Ok d => d
                    | Raise _ => 180
                    end /\
     beat_grid 120 (a_duration a) = Ok (a_beat_times a) /\
     fst (analyze_music w) =
       [mkEvent "Analyzing music (fallback)" 0.15 None]).
Proof.
  assert (Hfallback : forall d : R, exists grid, beat_grid 120 d = Ok grid)
    by (intros d; apply beat_grid_defined; lra).
  unfold analyze_music, try_except, bind, lift, ret, emit_progress.
  destruct (librosa_analysis w) as [[[d b] [| bt bts]] |]; simpl.
  - destruct (Req_dec_T b 0) as [-> | Hb].
    + rewrite beat_grid_zero_tempo. simpl.
      destruct (soundfile_duration w) as [d' |]; simpl.
      * destruct (Hfallback d') as [grid Hg]. rewrite Hg. simpl.
        eexists. split; [reflexivity |]. split; [discriminate |].
        split; [intros d0 b0 E H; inversion E; subst; now elim H |].
        intros _. simpl. now repeat split.
      * destruct (Hfallback 180) as [grid Hg]. rewrite Hg. simpl.
        eexists. split; [reflexivity |]. split; [discriminate |].
        split; [intros d0 b0 E H; inversion E; subst; now elim H |].
        intros _. simpl. now repeat split.
    + destruct (beat_grid_defined b d Hb) as [grid Hg]. rewrite Hg. simpl.
      eexists. split; [reflexivity |]. split; [discriminate |]. split.
      * intros d0 b0 H _. inversion H; subst. simpl. now repeat split.
      * intros [[e H] | [d0 H]]; [discriminate |].
        inversion H; subst. now elim Hb.
  - eexists. split; [reflexivity |]. split.
    + intros d0 b0 bt0 bts0 H. inversion H; subst. now split.
    + split; [discriminate |].
      intros [[e H] | [d0 H]]; discriminate.
  - destruct (soundfile_duration w) as [d' |]; simpl.
    + destruct (Hfallback d') as [grid Hg]. rewrite Hg. simpl.
      eexists. split; [reflexivity |]. split; [discriminate |].
      split; [discriminate |]. intros _. simpl. now repeat split.
    + destruct (Hfallback 180) as [grid Hg]. rewrite Hg. simpl.
      eexists. split; [reflexivity |]. split; [discriminate |].
      split; [discriminate |]. intros _. simpl. now repeat split.
Qed.

Lemma last_resort_grid :
  beat_grid 120 180 = Ok (map (fun i => INR i * 0.5) (seq 0 360)).
Proof.
  rewrite beat_grid_explicit by lra.
  assert (Hn : py_int (180 / (60 / 120)) = 360%Z).
  { unfold py_int. destruct (Rle_dec 0 (180 / (60 / 120))) as [_ | N].
    - symmetry. apply Int_part_spec. lra.
    - exfalso. apply N. lra. }
  rewrite Hn. unfold py_range. change (Z.to_nat 360) with 360%nat.
  f_equal. apply map_ext. intros i. lra.
Qed.

(** X12. When librosa and the metadata probe both fail, the analysis is a
    tempo of 120, a duration of 180 seconds and 360 beats half a second
    apart, from 0 to 179.5. *)
Theorem analysis_last_resort (w : World) :
  (exists e, librosa_analysis w = Raise e) ->
  (exists e, soundfile_duration w = Raise e) ->
  snd (analyze_music w) =
  Ok (mkAnalysis 120 180 (map (fun i => INR i * 0.5) (seq 0 360))).
Proof.
  intros [e He] [e' He'].
  unfold analyze_music, try_except, bind, lift, ret, emit_progress.
  rewrite He. cbn [fst snd app]. rewrite He'. cbn [fst snd app].
  rewrite last_resort_grid. reflexivity.
Qed.

Lemma analysis_last_resort_witness :
  snd (analyze_music no_audio_world) =
  Ok (mkAnalysis 120 180 (map (fun i => INR i * 0.5) (seq 0 360))).
Proof.
  apply analysis_last_resort.
  - exists ImportError. reflexivity.
  - exists ImportError. reflexivity.
Defined.

(** ** When [generate] returns *)

Lemma template_defined_iff (bpm : R) (beat_times : list R) (duration : R) :
  (bpm <> 0 ->
   generate_template_choreo bpm beat_times duration =
   Ok (frames_from 0 (retained_beats duration beat_times))) /\
  (bpm = 0 ->
   generate_template_choreo bpm beat_times duration = Raise ZeroDivisionError).
Proof.
  split.
  - apply generate_template_choreo_closed_form.
  - intros ->. unfold generate_template_choreo. now rewrite py_div_zero.
Qed.

(** X13. [generate] returns exactly when the output directory can be made,
    both files can be written and, if the ML tier gave no frames, the tempo
    of the analysis is not zero.  On the fallback path a zero tempo (librosa
    reporting tempo 0 with detected beats) makes it raise a division
    error. *)
Theorem generate_succeeds_iff (w : World) (a : AnalysisResult) :
  snd (analyze_music w) = Ok a ->
  ((exists choreo, snd (generate w) = Ok choreo) <->
   makedirs w = Ok tt /\ write_analysis w = Ok tt /\ write_choreo w = Ok tt /\
   ((exists fs, snd (try_edge_generation w (a_bpm a) (a_beat_times a)) =
                Ok (Some fs)) \/
    a_bpm a <> 0)) /\
  (makedirs w = Ok tt -> write_analysis w = Ok tt ->
   snd (try_edge_generation w (a_bpm a) (a_beat_times a)) = Ok None ->
   a_bpm a = 0 ->
   snd (generate w) = Raise ZeroDivisionError).
Proof.
  intros Ha. rewrite generate_result, Ha. cbn [rbind].
  rewrite try_edge_generation_result.
  set (edge := match torch_import w with | Ok _ => _ | Raise _ => _ end).
  destruct (template_defined_iff (a_bpm a) (a_beat_times a) (a_duration a))
    as [Hok Hzero].
  split.
  - destruct (makedirs w) as [[] |];
      [| split; [intros [c H]; discriminate | intros [H _]; discriminate]].
    destruct (write_analysis w) as [[] |];
      [| split; [intros [c H]; discriminate | intros [_ [H _]]; discriminate]].
    cbn [rbind]. destruct edge as [fs |]; cbn [rbind].
    + destruct (write_choreo w) as [[] |]; cbn [rbind].
      * split; [intros _; repeat split; left; now exists fs | eauto].
      * split; [intros [c H]; discriminate
               | intros [_ [_ [H _]]]; discriminate].
    + destruct (Req_dec_T (a_bpm a) 0) as [E | N].
      * rewrite (Hzero E). cbn [rbind]. split; [intros [c H]; discriminate |].
        intros [_ [_ [_ [[fs H] | H]]]]; [discriminate | contradiction].
      * rewrite (Hok N). cbn [rbind].
        destruct (write_choreo w) as [[] |]; cbn [rbind].
        -- split; [intros _; repeat split; now right | eauto].
        -- split; [intros [c H]; discriminate
                  | intros [_ [_ [H _]]]; discriminate].
  - intros -> -> He E. inversion He as [He']. rewrite He'.
    cbn [rbind]. rewrite (Hzero E). reflexivity.
Qed.

Lemma generate_succeeds_iff_witness :
  ((exists choreo, snd (generate plain_world) = Ok choreo) <->
   makedirs plain_world = Ok tt /\ write_analysis plain_world = Ok tt /\
   write_choreo plain_world = Ok tt /\
   ((exists fs, snd (try_edge_generation plain_world 120 [0; 1]) =
                Ok (Some fs)) \/
    120 <> 0)) /\
  (makedirs plain_world = Ok tt -> write_analysis plain_world = Ok tt ->
   snd (try_edge_generation plain_world 120 [0; 1]) = Ok None ->
   120 = 0 ->
   snd (generate plain_world) = Raise ZeroDivisionError).
Proof.
  apply (generate_succeeds_iff plain_world (mkAnalysis 120 2 [0; 1])).
  exact plain_world_analysis.
Defined.

Lemma edge_world_analysis :
  snd (analyze_music edge_world) = Ok (mkAnalysis 120 2 [0; 1]).
Proof. reflexivity. Qed.

Lemma edge_world_frames :
  snd (try_edge_generation edge_world 120 [0; 1]) =
  Ok (Some [mkKeyframe 0.25 [("left_hip", (0, 1)); ("right_hip", (1, 0))]]).
Proof.
  rewrite try_edge_generation_result.
  cbn [edge_world sample_world torch_import edge_find_spec edge_import
       edge_model edge_generate project_frames].
  rewrite project_two_hips. reflexivity.
Qed.

(** X14. Frames of the ML tier take precedence: when it returns frames and
    the files can be written, the choreography holds exactly these frames
    with the tempo and duration of the analysis, whatever the tempo is (the
    sequencer is not run, so a zero tempo does no harm), and the lines
    printed are those of the analysis, the three of the ML tier, "Saving
    choreography" and "Done", without the template-mode line. *)
Theorem ml_frames_take_precedence (w : World) (a : AnalysisResult)
    (fs : list Keyframe) :
  snd (analyze_music w) = Ok a ->
  snd (try_edge_generation w (a_bpm a) (a_beat_times a)) = Ok (Some fs) ->
  makedirs w = Ok tt -> write_analysis w = Ok tt -> write_choreo w = Ok tt ->
  snd (generate w) =
    Ok (mkChoreography (output_basename w) (a_bpm a) (a_duration a) fs) /\
  fst (generate w) =
    mkEvent "Analyzing music" 0.1 None :: fst (analyze_music w) ++
    [ mkEvent "Generating moves" 0.3 None;
      mkEvent "Loading EDGE model" 0.35 None;
      mkEvent "Running EDGE inference" 0.5 None;
      mkEvent "Projecting to 2D" 0.75 None;
      mkEvent "Saving choreography" 0.9 None;
      mkEvent "Done" 1.0 None ].
Proof.
  intros Ha He Hm Hwa Hwc. split.
  - rewrite generate_result, Hm, Ha. cbn [rbind]. rewrite Hwa. cbn [rbind].
    rewrite He. cbn [rbind]. rewrite Hwc. reflexivity.
  - rewrite generate_events, Hm, Ha, Hwa, He. unfold saving_stages.
    rewrite Hwc.
    destruct (try_edge_generation_events w (a_bpm a) (a_beat_times a))
      as [n [Hl Hn]].
    rewrite Hl, (Hn fs He). reflexivity.
Qed.

Lemma ml_frames_take_precedence_witness :
  snd (generate edge_world) =
    Ok (mkChoreography (output_basename edge_world) 120 2
          [mkKeyframe 0.25 [("left_hip", (0, 1)); ("right_hip", (1, 0))]]) /\
  fst (generate edge_world) =
    mkEvent "Analyzing music" 0.1 None :: fst (analyze_music edge_world) ++
    [ mkEvent "Generating moves" 0.3 None;
      mkEvent "Loading EDGE model" 0.35 None;
      mkEvent "Running EDGE inference" 0.5 None;
      mkEvent "Projecting to 2D" 0.75 None;
      mkEvent "Saving choreography" 0.9 None;
      mkEvent "Done" 1.0 None ].
Proof.
  apply (ml_frames_take_precedence edge_world (mkAnalysis 120 2 [0; 1])).
  - exact edge_world_analysis.
  - exact edge_world_frames.
  - reflexivity.
  - reflexivity.
  - reflexivity.
Defined.

(** ** The lines of a run *)

Ltac known_lines_only :=
  simpl; repeat (apply Forall_cons; [canonical_name |]); apply Forall_nil.

Lemma generate_lines_known (w : World) :
  Forall (fun e => In e known_lines) (fst (generate w)).
Proof.
  rewrite generate_events.
  destruct (makedirs w) as [u0 |]; [| constructor].
  destruct (analyze_music_total w) as [a [Ha Hl1]]. rewrite Ha.
  destruct (write_analysis w) as [u1 |];
    [| destruct Hl1 as [-> | ->]; known_lines_only].
  destruct (try_edge_generation_events w (a_bpm a) (a_beat_times a))
    as [n [Hl2 _]].
  rewrite Hl2. unfold saving_stages.
  destruct Hl1 as [-> | ->];
    destruct n as [| [| [| n]]]; cbn [firstn edge_stages]; try rewrite firstn_nil;
    destruct (snd (try_edge_generation w (a_bpm a) (a_beat_times a)))
      as [[fs |] |];
    try destruct (generate_template_choreo
                    (a_bpm a) (a_beat_times a) (a_duration a));
    try destruct (write_choreo w); known_lines_only.
Qed.

(** X15. A run prints only the nine known progress lines, each with its
    fixed progress value, and possibly one Error line with progress 0; so
    every progress value of a run lies in [0,1]. *)
Theorem run_lines_known (w : World) :
  (forall e, In e (events (main w)) ->
     In e known_lines \/
     (stage e = "Error" /\ progress e = 0 /\ error e <> None)) /\
  Forall (fun e => 0 <= progress e <= 1) (events (main w)).
Proof.
  assert (Hknown : forall e, In e known_lines -> 0 <= progress e <= 1).
  { intros e He. simpl in He.
    repeat (destruct He as [He | He]; [subst e; simpl; lra |]).
    contradiction. }
  assert (Hlines : forall e, In e (events (main w)) ->
            In e known_lines \/
            (stage e = "Error" /\ progress e = 0 /\ error e <> None)).
  { pose proof (generate_lines_known w) as Hgen.
    rewrite Forall_forall in Hgen.
    unfold main. destruct (parse_args w) as [status |]; [intros e [] |].
    destruct (mp3_is_file w); simpl.
    - destruct (generate w) as [log [choreo | ex]]; simpl in *.
      + intros e He. left. now apply Hgen.
      + intros e He. apply in_app_or in He. destruct He as [He | [<- | []]].
        * left. now apply Hgen.
        * right. simpl. repeat split. discriminate.
    - intros e [<- | []]. right. simpl. repeat split. discriminate. }
  split; [exact Hlines |].
  apply Forall_forall. intros e He.
  destruct (Hlines e He) as [H | [_ [H _]]]; [now apply Hknown | lra].
Qed.


(** ** Symmetry of the arm moves *)

Ltac joint_pair :=
  do 2 eexists; split; [reflexivity | simpl; unfold pt; do 2 f_equal; lra].

(** X17. The neutral stance and [arms_up], at every phase, are symmetric
    about the vertical line x = 0.5: each right joint is the mirror image of
    the left one.  In [wave_arms] the arms are opposed instead: the right
    elbow and wrist are the images of the left ones under a half turn, about
    (0.5, 0.32) and (0.5, 0.20), so one arm rises by what the other falls. *)
Theorem arm_moves_symmetry (t : R) :
  (forall p, p = base_pose \/ p = arms_up t ->
     mirrored p "left_shoulder" "right_shoulder" /\
     mirrored p "left_elbow" "right_elbow" /\
     mirrored p "left_wrist" "right_wrist" /\
     mirrored p "left_hip" "right_hip" /\
     mirrored p "left_knee" "right_knee" /\
     mirrored p "left_ankle" "right_ankle") /\
  opposed (wave_arms t) 0.32 "left_elbow" "right_elbow" /\
  opposed (wave_arms t) 0.20 "left_wrist" "right_wrist".
Proof.
  split; [| split].
  - intros p [-> | ->]; repeat split; joint_pair.
  - joint_pair.
  - joint_pair.
Qed.

(** ** The order of the frames *)

Lemma nondecreasing_retained (duration : R) (beat_times : list R) :
  nondecreasing beat_times ->
  nondecreasing (retained_beats duration beat_times).
Proof.
  induction beat_times as [| b rest IH]; intros Hs.
  - exact I.
  - cbn [retained_beats]. destruct (Rgt_dec b duration); [exact I |].
    destruct rest as [| c rest]; [exact I |].
    destruct Hs as [Hbc Hrest]. specialize (IH Hrest).
    cbn [retained_beats] in *.
    destruct (Rgt_dec c duration); [exact I |].
    split; [exact Hbc | exact IH].
Qed.

(** X19. The sequencer keeps the order of time: on beat times in
    non-decreasing order the timestamps of its frames are non-decreasing,
    and none exceeds the duration. *)
Theorem sequencer_preserves_order (bpm : R) (beat_times : list R)
    (duration : R) (frames : list Keyframe) :
  generate_template_choreo bpm beat_times duration = Ok frames ->
  nondecreasing beat_times ->
  nondecreasing (map timestamp frames) /\
  Forall (fun kf => timestamp kf <= duration) frames.
Proof.
  intros Hgen Hs.
  destruct (Req_dec_T bpm 0) as [-> | Hbpm].
  - unfold generate_template_choreo in Hgen. rewrite py_div_zero in Hgen.
    discriminate.
  - rewrite generate_template_choreo_closed_form in Hgen by exact Hbpm.
    inversion Hgen; subst frames. split.
    + rewrite frames_from_timestamps. now apply nondecreasing_retained.
    + destruct (retained_beats_prefix duration beat_times) as [_ [_ [Hall _]]].
      rewrite <- (frames_from_timestamps (retained_beats duration beat_times) 0)
        in Hall.
      rewrite Forall_map in Hall. exact Hall.
Qed.

Lemma sequencer_preserves_order_witness :
  nondecreasing (map timestamp (frames_from 0 [0; 1; 2; 3; 4])) /\
  Forall (fun kf => timestamp kf <= 9) (frames_from 0 [0; 1; 2; 3; 4]).
Proof.
  apply (sequencer_preserves_order 120 [0; 1; 2; 3; 4] 9).
  - exact sample_sequence.
  - simpl. repeat split; lra.
Defined.

(** The poses of [edge_world] are moderate. *)
Lemma edge_world_moderate : moderate_output edge_world.
Proof.
  intros output H. inversion H; subst output.
  constructor; [exact moderate_sample | constructor].
Qed.

(** ** The normalizer on every binary64 input *)

Lemma F64_collect_visible_total (table : list (nat * string))
    (joints_3d : list F64.Point3) :
  forall visible : F64.Pose,
    exists visible' : F64.Pose,
      F64.collect_visible table joints_3d visible = Ok visible'.
Proof.
  induction table as [| [idx name] table IH]; intros visible; simpl.
  - now exists visible.
  - destruct (Nat.ltb_spec idx (List.length joints_3d)) as [Hlt | Hge].
    + destruct (nth_error joints_3d idx) as [[[x y] z] |] eqn:E.
      * apply IH.
      * apply nth_error_None in E. lia.
    + apply IH.
Qed.

Lemma F64_py_or_nonzero (a : float) :
  PrimFloat.eqb (F64.py_or a 1) 0 = false.
Proof.
  unfold F64.py_or. destruct (PrimFloat.eqb a 0) eqn:E; [reflexivity | exact E].
Qed.

Lemma F64_normalize_items_total (items : list (string * (float * float)))
    (min_x range_x min_y range_y : float) :
  PrimFloat.eqb range_x 0 = false ->
  PrimFloat.eqb range_y 0 = false ->
  forall normalized : F64.Pose,
    exists pose : F64.Pose,
      F64.normalize_items items min_x range_x min_y range_y normalized = Ok pose.
Proof.
  intros Hx Hy.
  induction items as [| [name [x y]] items IH]; intros normalized; simpl.
  - now exists normalized.
  - unfold F64.py_div. rewrite Hx, Hy. simpl. apply IH.
Qed.

(** X20. In binary64 the normalizer returns on every array of rows,
    whatever the values: infinities and NaNs included, the extent it divides
    by is never zero, since a zero extent is replaced by 1.0 and any other is
    kept.  On an array of at most one row it returns the empty pose. *)
Theorem normalizer_never_raises (joints_3d : list F64.Point3) :
  (exists pose : F64.Pose, F64.project_smpl_to_2d joints_3d = Ok pose) /\
  ((List.length joints_3d <= 1)%nat -> F64.project_smpl_to_2d joints_3d = Ok []).
Proof.
  split.
  - unfold F64.project_smpl_to_2d.
    destruct (F64_collect_visible_total SMPL_TO_JOINT joints_3d [])
      as [visible ->].
    cbn [rbind]. destruct visible as [| [n0 [x0 y0]] rest]; [now exists [] |].
    cbn [F64.py_min F64.py_max Dict.values map fst snd rbind].
    apply F64_normalize_items_total; apply F64_py_or_nonzero.
  - intros Hlen. destruct joints_3d as [| r [| r' rest]];
      [reflexivity | reflexivity | simpl in Hlen; lia].
Qed.

(** The two hips of [project_two_hips], computed in binary64. *)
Example project_two_hips_binary64 :
  F64.project_smpl_to_2d [(9, 9, 9); (1, 2, 0); (3, 6, 0)]%float =
  Ok [("left_hip", (0, 1)); ("right_hip", (1, 0))]%float.
Proof. vm_compute. reflexivity. Qed.
